(** * LSTM_Model.py: data preparation, embedding table, batching and
    checkpoint selection of the sentiment classifier script.

    The numerical framework (autograd, the recurrent layer, the optimizer)
    is an external collaborator and is not modelled.  What is modelled is
    the script's own logic: the vocabulary builder, the sequence encoder,
    the embedding table, the sequence-length inference of [forward], the
    mini-batch slicing, the best-checkpoint rule and the no-information
    rate.

    Conventions.  Python integers that are data (token ids, labels, the
    target length) are [Z]; sizes, positions and counters are [nat];
    a floating-point number is the rational [Q] it denotes, and the
    float64 operations whose value the script reports (the true division
    of the no-information rate, the product [100 * accuracy]) round their
    exact result with [round_float64]; Python exceptions are the [Raise]
    branch of [result]. *)

From Stdlib Require Import ZArith QArith Qround Qpower Qabs Lia Lqa.
From stdpp Require Import gmap strings list sorting.

Local Open Scope Z_scope.

(** ** Exceptions *)

Inductive exn : Type :=
  | KeyError (key : string)
  | ValueError
  | IndexError
  | ZeroDivisionError
  | RuntimeError.

Inductive result (A : Type) : Type :=
  | Ok (a : A)
  | Raise (e : exn).
Arguments Ok {A} a.
Arguments Raise {A} e.

Global Instance result_ret : MRet result := λ A a, Ok a.
Global Instance result_bind : MBind result := λ A B f m,
  match m with
  | Ok a => f a
  | Raise e => Raise e
  end.

(** [try: body  except: handler] with a bare [except]. *)
Definition try_except {A} (body : result A) (handler : exn → result A) : result A :=
  match body with
  | Ok a => Ok a
  | Raise e => handler e
  end.

Definition is_Ok {A} (r : result A) : Prop := ∃ a, r = Ok a.

(** ** Floating point

    A float64 number has 53 significant bits.  An operation on floats
    returns its exact result rounded to the nearest such number, to the
    one with an even significand when two are equally near.  The range
    of the exponent is not modelled: the values the script computes this
    way are percentages. *)

(** The integer nearest to [x], the even one at a tie. *)
Definition round_half_even (x : Q) : Z :=
  let f := Qfloor x in
  match (x - inject_Z f ?= 1 # 2)%Q with
  | Lt => f
  | Gt => f + 1
  | Eq => if Z.even f then f else f + 1
  end.

(** The exponent [e] of a positive [x]: [2^e <= x < 2^(e+1)]. *)
Definition binade (x : Q) : Z :=
  let e := Z.log2 (Qnum x) - Z.log2 (Z.pos (Qden x)) in
  if Qle_bool (2 ^ e) x then e else e - 1.

(** A positive [x] rounded to 53 significant bits. *)
Definition round_significand (x : Q) : Q :=
  let e := binade x in
  (inject_Z (round_half_even (x * 2 ^ (52 - e))) * 2 ^ (e - 52))%Q.

Definition round_float64 (x : Q) : Q :=
  match (x ?= 0)%Q with
  | Eq => 0%Q
  | Gt => Qred (round_significand x)
  | Lt => Qred (- round_significand (- x))
  end.

(** [a / b] on Python integers: the quotient as a float. *)
Definition int_truediv (a b : Z) : result Q :=
  if decide (b = 0) then Raise ZeroDivisionError
  else Ok (round_float64 (inject_Z a / inject_Z b)).

(** [a * b] on floats. *)
Definition float64_mul (a b : Q) : Q := round_float64 (a * b).

(** ** Arrays and tensors

    A two-dimensional array keeps its element type tag and its shape next
    to its rows, so that the shape [(n, 0)] is representable. *)

Inductive dtype : Type := float64 | float32 | int64.

Record tensor : Type := Tensor {
  t_dtype : dtype;
  t_rows : nat;
  t_cols : nat;
  t_data : list (list Q)
}.

Definition zeros (n : nat) : list Q := replicate n 0%Q.
Definition ones (n : nat) : list Q := replicate n 1%Q.

(** [d[k]] on a dictionary. *)
Definition dict_getitem (d : gmap string Z) (k : string) : result Z :=
  match d !! k with
  | Some v => Ok v
  | None => Raise (KeyError k)
  end.

(** [l[:n]] and [l[lo:hi]] for [0 <= lo <= hi]; both clamp at the end. *)
Definition py_slice {A} (lo hi : nat) (l : list A) : list A :=
  take (hi - lo)%nat (drop lo l).

(** Position of index [i] in a dimension of size [n]: negative indices
    count from the end, anything else out of range is an [IndexError]. *)
Definition py_index (n : nat) (i : Z) : result nat :=
  if decide (0 ≤ i < Z.of_nat n) then Ok (Z.to_nat i)
  else if decide (- Z.of_nat n ≤ i < 0) then Ok (Z.to_nat (Z.of_nat n + i))
  else Raise IndexError.

(** The value of [t[i] = v]: a row of the right width is stored as it is,
    a one-element value is broadcast, any other width is refused. *)
Definition broadcast {A} (shape_error : exn) (n : nat) (v : list A) :
    result (list A) :=
  if decide (length v = n) then Ok v
  else match v with
       | [c] => Ok (replicate n c)
       | _ => Raise shape_error
       end.

(** [shape_error] is what the library raises on a width it cannot
    broadcast: [ValueError] in NumPy, [RuntimeError] in torch. *)
Definition setitem_row (shape_error : exn) (t : tensor) (i : Z) (v : list Q) :
    result tensor :=
  pos ← py_index (t_rows t) i;
  row ← broadcast shape_error (t_cols t) v;
  Ok (Tensor (t_dtype t) (t_rows t) (t_cols t) (<[pos := row]> (t_data t))).

Section Script.

(** [nltk.word_tokenize], an external function of the script. *)
Variable word_tokenize : string → list string.

(** The contents of freshly allocated, uninitialised memory at a row and
    a column ([np.empty], [torch.empty]). *)
Variable uninitialised : nat → nat → Q.

(** The order in which iterating [set(tokens)] yields its elements. *)
Variable set_iter : list string → list string.

Definition empty_data (n m : nat) : list (list Q) :=
  map (λ i, map (uninitialised i) (seq 0 m)) (seq 0 n).

(** [np.empty((n, m))]: default element type, negative sizes refused. *)
Definition np_empty (n : nat) (m : Z) : result tensor :=
  if decide (m < 0) then Raise ValueError
  else Ok (Tensor float64 n (Z.to_nat m) (empty_data n (Z.to_nat m))).

(** [torch.empty((n, m))] with the default element type. *)
Definition torch_empty (n m : nat) : tensor :=
  Tensor float32 n m (empty_data n m).

(** ** The sequence encoder, [convert_to_ids] *)

(** One round of the token loop: the lookup, and the handler that repeats
    the lookup. *)
Definition append_id (vocab_dict : gmap string Z) (word_ids : list Z)
    (token : string) : result (list Z) :=
  try_except
    (id ← dict_getitem vocab_dict token; Ok (word_ids ++ [id]))
    (λ _, id ← dict_getitem vocab_dict token; Ok (word_ids ++ [id])).

Fixpoint word_ids_loop (vocab_dict : gmap string Z) (tokens : list string)
    (word_ids : list Z) : result (list Z) :=
  match tokens with
  | [] => Ok word_ids
  | token :: rest =>
      word_ids' ← append_id vocab_dict word_ids token;
      word_ids_loop vocab_dict rest word_ids'
  end.

(** The branch condition [pad_to < len(word_ids)]. *)
Definition truncates (pad_to : Z) (word_ids : list Z) : bool :=
  bool_decide (pad_to < Z.of_nat (length word_ids)).

(** The value stored in [x[idx]]. *)
Definition fit_row (pad_to : Z) (word_ids : list Z) : list Z :=
  if truncates pad_to word_ids
  then take (Z.to_nat pad_to) word_ids
  else word_ids ++ replicate (Z.to_nat (pad_to - Z.of_nat (length word_ids))) 0.

(** The sentence loop.  The row is stored as the numbers its ids denote:
    the array holds floats, which represent the integers of magnitude up
    to [2^53], such as the ids of the vocabulary builder, exactly. *)
Fixpoint convert_loop (vocab_dict : gmap string Z) (pad_to : Z) (idx : nat)
    (sentences : list string) (x : tensor) : result tensor :=
  match sentences with
  | [] => Ok x
  | sentence :: rest =>
      word_ids ← word_ids_loop vocab_dict (word_tokenize sentence) [];
      x' ← setitem_row ValueError x (Z.of_nat idx) (map inject_Z (fit_row pad_to word_ids));
      convert_loop vocab_dict pad_to (S idx) rest x'
  end.

Definition convert_to_ids (raw_sentences : list string)
    (vocab_dict : gmap string Z) (pad_to : Z) : result tensor :=
  x ← np_empty (length raw_sentences) pad_to;
  convert_loop vocab_dict pad_to 0 raw_sentences x.

(** What the encoder stores for a sentence: the ids of its tokens, fitted
    to the target length. *)
Definition encodes (vocab_dict : gmap string Z) (pad_to : Z)
    (sentence : string) (row : list Q) : Prop :=
  ∃ ids, Forall2 (λ token id, vocab_dict !! token = Some id)
           (word_tokenize sentence) ids
         ∧ row = map inject_Z (fit_row pad_to ids).

(** ** The vocabulary builder, [extract_vocab_dict_and_msl] *)

(** The sentence loop: the tokens seen so far and the longest sentence. *)
Definition vocab_step (st : list string * Z) (sentence : string) : list string * Z :=
  let tokens_in_sentence := word_tokenize sentence in
  let n := Z.of_nat (length tokens_in_sentence) in
  (st.1 ++ tokens_in_sentence, if bool_decide (st.2 < n) then n else st.2).

Definition vocab_loop (sentences : list string) : list string * Z :=
  foldl vocab_step ([], 0) sentences.

(** A dictionary comprehension stores its pairs one after the other. *)
Definition dict_of_pairs (pairs : list (string * Z)) : gmap string Z :=
  foldl (λ d kv, <[kv.1 := kv.2]> d) ∅ pairs.

Definition extract_vocab_dict_and_msl
    (sentences_train sentences_dev sentences_val : list string) :
    gmap string Z * Z :=
  let st := vocab_loop (sentences_train ++ sentences_dev ++ sentences_val) in
  let keys := set_iter st.1 in
  let token_vocab := dict_of_pairs (zip keys (seqZ 1 (Z.of_nat (length keys)))) in
  (token_vocab, st.2).

(** All tokens of a corpus, in order, and the token count of its longest
    sentence. *)
Definition corpus_tokens (sentences : list string) : list string :=
  sentences ≫= word_tokenize.

Definition longest (sentences : list string) : nat :=
  max_list (map (λ s, length (word_tokenize s)) sentences).

(** ** The embedding table, [get_glove_table] *)

Definition dict_values (d : gmap string Z) : list Z := (map_to_list d).*2.

Definition sorted (l : list Z) : list Z := merge_sort Z.le l.

Fixpoint glove_loop (glove_dict : gmap Z (list Q)) (ids : list Z)
    (lookup_table : tensor) : result tensor :=
  match ids with
  | [] => Ok lookup_table
  | token_id :: rest =>
      lookup_table' ←
        match glove_dict !! token_id with
        | Some v => setitem_row RuntimeError lookup_table token_id v
        | None => setitem_row RuntimeError lookup_table token_id (ones 50)
        end;
      glove_loop glove_dict rest lookup_table'
  end.

Definition get_glove_table (vocab_dict : gmap string Z)
    (glove_dict : gmap Z (list Q)) : result tensor :=
  let lookup_table := torch_empty (size vocab_dict + 2) 50 in
  lookup_table ← glove_loop glove_dict (sorted (dict_values vocab_dict)) lookup_table;
  setitem_row RuntimeError lookup_table 0 (zeros 50).

(** [nn.Embedding(vocab_size + 2, embedding_dim)]: the shape of the
    weight of the model's embedding layer. *)
Definition embedding_shape (vocab_size embedding_dim : nat) : nat * nat :=
  ((vocab_size + 2)%nat, embedding_dim).

(** [weight.data.copy_(look_up_table)] on a weight of shape [shape];
    the script copies a table of the shape of the weight. *)
Definition copy_ (shape : nat * nat) (src : tensor) : result tensor :=
  if decide (shape = (t_rows src, t_cols src))
  then Ok (Tensor float32 shape.1 shape.2 (t_data src))
  else Raise RuntimeError.

End Script.

(** ** Sequence lengths in [SentimentLSTM.forward] *)

Global Instance Q_inhabited : Inhabited Q := populate 0%Q.

(** A batch of id sequences, the [LongTensor] of shape
    [(b_size, b_steps)] handed to [forward]. *)
Record id_batch : Type := IdBatch {
  b_size : nat;
  b_steps : nat;
  b_ids : list (list Z)
}.

(** A three-dimensional tensor, read by position. *)
Record tensor3 : Type := Tensor3 {
  dim0 : nat;
  dim1 : nat;
  dim2 : nat;
  at3 : nat → nat → nat → Q
}.

Definition id_in_table (weight : tensor) (id : Z) : bool :=
  bool_decide (0 ≤ id < Z.of_nat (t_rows weight)).

(** [self.embedding(x)]: the weight row of every id; an id outside the
    table is refused. *)
Definition embedding (weight : tensor) (x : id_batch) : result tensor3 :=
  if forallb (forallb (id_in_table weight)) (b_ids x)
  then Ok (Tensor3 (b_size x) (b_steps x) (t_cols weight)
             (λ b t d, (t_data weight !!! Z.to_nat ((b_ids x !!! b) !!! t)) !!! d))
  else Raise IndexError.

(** [x.permute(1, 0, 2)] *)
Definition permute_1_0_2 (x : tensor3) : tensor3 :=
  Tensor3 (dim1 x) (dim0 x) (dim2 x) (λ i j k, at3 x j i k).

(** [torch.sum(x[:, j, :] == 0)]: the number of entries of the slice that
    are zero. *)
Definition sum_eq_zero (x : tensor3) (j : nat) : nat :=
  sum_list (map (λ i, length (filter (λ k, Is_true (Qeq_bool (at3 x i j k) 0))
                                (seq 0 (dim2 x))))
                (seq 0 (dim0 x))).

(** The list [lenghts] that [forward] hands to [pack_padded_sequence].
    The quotient by 50 is kept exact; the script's division returns the
    same number whenever the count is a multiple of 50. *)
Definition lenghts (seq_len : Z) (x : tensor3) : list Q :=
  map (λ sentence_idx,
         let n_zeros := (inject_Z (Z.of_nat (sum_eq_zero x sentence_idx)) / 50)%Q in
         (inject_Z seq_len - n_zeros)%Q)
      (seq 0 (dim1 x)).

(** [SentimentLSTM.forward] up to its call of [pack_padded_sequence]: the
    lengths it hands over, when packing is on. *)
Definition forward_lengths (use_packed_sequence : bool) (seq_len : Z)
    (weight : tensor) (x : id_batch) : result (option (list Q)) :=
  x ← embedding weight x;
  let x := permute_1_0_2 x in
  if use_packed_sequence then Ok (Some (lenghts seq_len x))
  else Ok None.

(** Whether the embedding row of timestep [t] of sequence [j] is entirely
    zero, and the number of such rows of sequence [j]. *)
Definition all_zero_row (x : tensor3) (t j : nat) : bool :=
  forallb (λ k, Qeq_bool (at3 x t j k) 0) (seq 0 (dim2 x)).

Definition all_zero_rows (x : tensor3) (j : nat) : nat :=
  length (filter (λ t, Is_true (all_zero_row x t j)) (seq 0 (dim0 x))).

(** The number of non-padding ids of a sequence. *)
Definition true_length (ids : list Z) : nat :=
  length (filter (λ id, id ≠ 0) ids).

(** ** Mini-batches *)

(** [range(n // batch_size + 1)] *)
Definition batch_range (n batch_size : nat) : result (list nat) :=
  if decide (batch_size = 0%nat) then Raise ZeroDivisionError
  else Ok (seq 0 (n / batch_size + 1)).

(** [slice(batch * batch_size, (batch + 1) * batch_size)] *)
Definition batch_inds (batch_size batch : nat) : nat * nat :=
  ((batch * batch_size)%nat, ((batch + 1) * batch_size)%nat).

Definition getitem_slice {A} (inds : nat * nat) (l : list A) : list A :=
  py_slice inds.1 inds.2 l.

Fixpoint result_mapM {A B} (f : A → result B) (l : list A) : result (list B) :=
  match l with
  | [] => Ok []
  | a :: l' => b ← f a; bs ← result_mapM f l'; Ok (b :: bs)
  end.

(** [t[lo:hi] = v]: the slice is clamped to the rows of [t], and [v] must
    fit it, up to broadcasting. *)
Definition setitem_slice (t : tensor) (inds : nat * nat) (v : list (list Q)) :
    result tensor :=
  let lo := (inds.1 `min` t_rows t)%nat in
  let hi := (inds.2 `min` t_rows t)%nat in
  rows ← broadcast RuntimeError (hi - lo)%nat v;
  rows ← result_mapM (broadcast RuntimeError (t_cols t)) rows;
  Ok (Tensor (t_dtype t) (t_rows t) (t_cols t)
        (take lo (t_data t) ++ rows ++ drop hi (t_data t))).

(** The consecutive slices of [l] of width [batch_size], for the batch
    numbers [0 .. n / batch_size]. *)
Definition consecutive_slices {A} (batch_size n : nat) (l : list A) : list (list A) :=
  map (λ b, py_slice (b * batch_size) ((b + 1) * batch_size) l)
      (seq 0 (n / batch_size + 1)).

Fixpoint result_foldl {A B} (f : A → B → result A) (a : A) (l : list B) : result A :=
  match l with
  | [] => Ok a
  | b :: l' => a' ← f a b; result_foldl f a' l'
  end.

(** [np.argmax] of one row: the position of the first maximum. *)
Fixpoint argmax_from (best_pos : nat) (best : Q) (pos : nat) (row : list Q) : nat :=
  match row with
  | [] => best_pos
  | q :: row' =>
      if Qle_bool q best then argmax_from best_pos best (S pos) row'
      else argmax_from pos q (S pos) row'
  end.

Definition argmax (row : list Q) : Z :=
  match row with
  | [] => 0
  | q :: row' => Z.of_nat (argmax_from 0 q 1 row')
  end.

(** ** The training loop and the batched accuracy *)

Section Training.

(** The state of the model and of its optimizer. *)
Variable params : Type.

(** One optimisation step on a mini-batch (clear the gradients, forward,
    loss, backward, update): the new state and [loss.item()]. *)
Variable sgd_step : params → list (list Z) → list Z → params * Q.

(** The forward pass on a mini-batch, as a function of the state and the
    batch: one row of class scores per row. *)
Variable model : params → list (list Z) → list (list Q).

(** [sklearn.metrics.accuracy_score] *)
Variable accuracy_score : list Z → list Z → result Q.

Variable uninitialised : nat → nat → Q.

(** The model maps a batch to one row of two class scores per example. *)
Definition scores_shape (θ : params) : Prop :=
  ∀ batch, length (model θ batch) = length batch
           ∧ Forall (λ r, length r = 2%nat) (model θ batch).

(** The body of the batch loop on the examples and labels of one batch;
    the state is the model, [loss_train] and [train_steps]. *)
Definition train_on (st : params * Q * Z) (xy : list (list Z) * list Z) :
    params * Q * Z :=
  let '(θ, loss_train, train_steps) := st in
  let '(θ', loss) := sgd_step θ xy.1 xy.2 in
  (θ', (loss_train + loss)%Q, train_steps + 1).

Definition train_batch (batch_size : nat) (x_train : list (list Z))
    (y_train : list Z) (st : params * Q * Z) (batch : nat) : params * Q * Z :=
  let inds := batch_inds batch_size batch in
  train_on st (getitem_slice inds x_train, getitem_slice inds y_train).

(** The batch loop of one epoch. *)
Definition train_pass (batch_size : nat) (θ : params) (x_train : list (list Z))
    (y_train : list Z) : result (params * Q * Z) :=
  batches ← batch_range (length x_train) batch_size;
  Ok (foldl (train_batch batch_size x_train y_train) (θ, 0%Q, 0) batches).

Definition acc_batch (batch_size : nat) (θ : params) (x : list (list Z))
    (logits : tensor) (batch : nat) : result tensor :=
  let inds := batch_inds batch_size batch in
  setitem_slice logits inds (model θ (getitem_slice inds x)).

Definition acc_logits (batch_size : nat) (θ : params) (x : list (list Z)) :
    result tensor :=
  let logits := torch_empty uninitialised (length x) 2 in
  batches ← batch_range (length x) batch_size;
  result_foldl (acc_batch batch_size θ x) logits batches.

(** [acc(x, y, return_labels=True)] *)
Definition acc_labels (batch_size : nat) (θ : params) (x : list (list Z)) :
    result (list Z) :=
  logits ← acc_logits batch_size θ x;
  Ok (map argmax (t_data logits)).

(** [acc(x, y)] *)
Definition acc (batch_size : nat) (θ : params) (x : list (list Z)) (y : list Z) :
    result Q :=
  pred_labels ← acc_labels batch_size θ x;
  a ← accuracy_score y pred_labels;
  Ok (float64_mul 100 a).

(** The state of the epoch loop.  [checkpoint] is the content of the
    checkpoint file, [val_log] the validation accuracies reported so far
    and [save_log] the epochs that reported a save. *)
Record loop_state : Type := LoopState {
  cur_params : params;
  acc_dev_best : Q;
  checkpoint : option params;
  val_log : list Q;
  save_log : list nat
}.

Definition epoch_step (SAVE_MODEL : bool) (batch_size : nat)
    (x_train : list (list Z)) (y_train : list Z)
    (x_val : list (list Z)) (y_val : list Z)
    (st : loop_state) (epoch : nat) : result loop_state :=
  '(θ, loss_train, train_steps) ← train_pass batch_size (cur_params st) x_train y_train;
  acc_train ← acc batch_size θ x_train y_train;
  y_val_pred ← acc_labels batch_size θ x_val;
  a ← accuracy_score y_val y_val_pred;
  let acc_val := float64_mul 100 a in
  if negb (Qle_bool acc_val (acc_dev_best st)) && SAVE_MODEL
  then Ok (LoopState θ acc_val (Some θ)
             (val_log st ++ [acc_val]) (save_log st ++ [epoch]))
  else Ok (LoopState θ (acc_dev_best st) (checkpoint st)
             (val_log st ++ [acc_val]) (save_log st)).

Definition training_loop (SAVE_MODEL : bool) (n_epochs batch_size : nat)
    (θ : params) (x_train : list (list Z)) (y_train : list Z)
    (x_val : list (list Z)) (y_val : list Z) : result loop_state :=
  result_foldl (epoch_step SAVE_MODEL batch_size x_train y_train x_val y_val)
    (LoopState θ 0%Q None [] []) (seq 0 n_epochs).

End Training.

Arguments LoopState {params} _ _ _ _ _.
Arguments cur_params {params} _.
Arguments acc_dev_best {params} _.
Arguments checkpoint {params} _.
Arguments val_log {params} _.
Arguments save_log {params} _.

(** ** The no-information rate *)

Definition count_label (y : list Z) (v : Z) : nat :=
  length (filter (λ l, l = v) y).

(** [torch.unique(y, return_counts=True)]: the distinct values in
    increasing order, and how often each occurs. *)
Definition torch_unique (y : list Z) : list Z * list nat :=
  let values := sorted (remove_dups y) in
  (values, map (count_label y) values).

(** [.max()] of a tensor of counts; an empty tensor has no maximum. *)
Definition tensor_max (l : list nat) : result nat :=
  match l with
  | [] => Raise RuntimeError
  | c :: cs => Ok (foldl Nat.max c cs)
  end.

Definition no_information_rate (y_dev : list Z) : result Q :=
  let labels_ditrib := torch_unique y_dev in
  m ← tensor_max labels_ditrib.2;
  int_truediv (100 * Z.of_nat m) (Z.of_nat (length y_dev)).

(** ** The pretrained vectors, [get_glove_embeddings] *)

Definition newline : Ascii.ascii := Ascii.ascii_of_nat 10.

(** [s.split("\n")]: the pieces between the newlines, one more than
    there are newlines. *)
Fixpoint split_newline (s : string) : list string :=
  match s with
  | EmptyString => [EmptyString]
  | String c s' =>
      if Ascii.eqb c newline
      then EmptyString :: split_newline s'
      else match split_newline s' with
           | [] => [String c EmptyString]
           | piece :: pieces => String c piece :: pieces
           end
  end.

Fixpoint no_newline (s : string) : bool :=
  match s with
  | EmptyString => true
  | String c s' => negb (Ascii.eqb c newline) && no_newline s'
  end.

(** [l[:-1]] *)
Definition drop_last {A} (l : list A) : list A := take (length l - 1) l.

Section GloveFile.

(** [str.split()] without argument, the fields of a line. *)
Variable str_split : string → list string.

(** The number a field denotes, if it denotes one. *)
Variable float32_of : string → option Q.

(** [np.array(fields, dtype="float32")] *)
Definition np_array_float32 (fields : list string) : result (list Q) :=
  result_mapM (λ field, match float32_of field with
                        | Some q => Ok q
                        | None => Raise ValueError
                        end) fields.

(** The body of the line loop. *)
Definition glove_line (vocab_dict : gmap string Z)
    (embeddings_dict : gmap Z (list Q)) (line : string) :
    result (gmap Z (list Q)) :=
  match str_split line with
  | [] => Raise IndexError
  | word :: fields =>
      if bool_decide (is_Some (vocab_dict !! word))
      then v ← np_array_float32 fields;
           id ← dict_getitem vocab_dict word;
           Ok (<[id := v]> embeddings_dict)
      else Ok embeddings_dict
  end.

(** [get_glove_embeddings] on the text [glove] read from the file. *)
Definition get_glove_embeddings (vocab_dict : gmap string Z) (glove : string) :
    result (gmap Z (list Q)) :=
  result_foldl (glove_line vocab_dict) ∅ (drop_last (split_newline glove)).

End GloveFile.

(** ** From the encoded arrays to the batches of [forward] *)

(** The integer a float is cut to. *)
Definition Qtrunc (q : Q) : Z := Z.quot (Qnum q) (Z.pos (Qden q)).

(** [torch.LongTensor(x)] of an encoded array. *)
Definition LongTensor (x : tensor) : id_batch :=
  IdBatch (t_rows x) (t_cols x) (map (map Qtrunc) (t_data x)).

(** [x[inds]] on a tensor of ids. *)
Definition batch_getitem (inds : nat * nat) (x : id_batch) : id_batch :=
  IdBatch (length (getitem_slice inds (b_ids x))) (b_steps x)
    (getitem_slice inds (b_ids x)).

(** ** Instances for the examples

    A whitespace tokenizer, a filler for uninitialised memory, and the
    order of last occurrences as iteration order of a set. *)

Definition ws_tokenize : string → list string := String.words.

Definition filler (i j : nat) : Q := inject_Z (Z.of_nat (7 * i + j + 3)).

Definition dedup_order (l : list string) : list string := remove_dups l.

(** A model whose state counts the optimisation steps and which prefers
    class 1 from the third step on, and the share of agreeing labels as
    accuracy. *)
Definition toy_sgd_step (θ : nat) (x : list (list Z)) (y : list Z) : nat * Q :=
  (S θ, 1%Q).

Definition toy_model (θ : nat) (batch : list (list Z)) : list (list Q) :=
  map (λ _, if bool_decide (θ < 3)%nat then [1%Q; 0%Q] else [0%Q; 1%Q]) batch.

Definition toy_accuracy_score (y pred : list Z) : result Q :=
  Ok (inject_Z (Z.of_nat (length (filter (λ p, p.1 = p.2) (zip y pred))))
      / inject_Z (Z.of_nat (length y)))%Q.

(** An embedding weight whose row of id 1 has one zero component, and a
    batch of one sequence, id 1 followed by one padding id. *)
Definition toy_weight : tensor :=
  Tensor float32 2 50 [zeros 50; 0%Q :: ones 49].

Definition toy_batch : id_batch := IdBatch 1 2 [[1; 0]].

(** A line of a vector file: a word followed by [n] fields [1]. *)
Fixpoint ones_line (word : string) (n : nat) : string :=
  match n with
  | O => word
  | S n' => ones_line word n' +:+ " 1"
  end.

(** Fields that are decimal numerals of one digit. *)
Definition digit_of (field : string) : option Q :=
  match field with
  | String c EmptyString =>
      if bool_decide (48 ≤ Z.of_N (Ascii.N_of_ascii c) ≤ 57)
      then Some (inject_Z (Z.of_N (Ascii.N_of_ascii c) - 48))
      else None
  | _ => None
  end.

(** * Properties *)

(** ** Floating point *)

(** *** The nearest integer *)

Lemma Qfloor_bounds x : (inject_Z (Qfloor x) <= x < inject_Z (Qfloor x) + 1)%Q.
Proof.
  split; [apply Qfloor_le|].
  pose proof (Qlt_floor x) as H. by rewrite inject_Z_plus in H.
Qed.

Lemma round_half_even_floor x :
  Qfloor x ≤ round_half_even x ≤ Qfloor x + 1.
Proof.
  unfold round_half_even.
  destruct (Qcompare _ _); [destruct (Z.even _)|..]; lia.
Qed.

Lemma round_half_even_near x :
  (inject_Z (round_half_even x) - (1 # 2) <= x
   ∧ x <= inject_Z (round_half_even x) + (1 # 2))%Q.
Proof.
  pose proof (Qfloor_bounds x) as [Hlo Hhi].
  unfold round_half_even.
  destruct (Qcompare_spec (x - inject_Z (Qfloor x)) (1 # 2)) as [Heq|Hlt|Hgt];
    [destruct (Z.even _)|..]; rewrite ?inject_Z_plus; change (inject_Z 1) with 1%Q;
    split; lra.
Qed.

Lemma round_half_even_mono x y :
  (x <= y)%Q → round_half_even x ≤ round_half_even y.
Proof.
  intros Hxy. pose proof (Qfloor_resp_le _ _ Hxy) as Hfloor.
  destruct (decide (Qfloor x = Qfloor y)) as [Heq|Hne].
  - unfold round_half_even. rewrite <- Heq.
    destruct (Qcompare_spec (x - inject_Z (Qfloor x)) (1 # 2)) as [Hx|Hx|Hx];
      destruct (Qcompare_spec (y - inject_Z (Qfloor x)) (1 # 2)) as [Hy|Hy|Hy];
      try destruct (Z.even _); try lia; lra.
  - pose proof (round_half_even_floor x). pose proof (round_half_even_floor y). lia.
Qed.

Lemma round_half_even_Z z : round_half_even (inject_Z z) = z.
Proof.
  unfold round_half_even. rewrite Qfloor_Z.
  destruct (Qcompare_spec (inject_Z z - inject_Z z) (1 # 2)) as [H|H|H]; [lra|done|lra].
Qed.

Global Instance round_half_even_proper : Proper (Qeq ==> eq) round_half_even.
Proof.
  intros x y Hxy. apply Z.le_antisymm; apply round_half_even_mono; rewrite Hxy; apply Qle_refl.
Qed.

Lemma round_half_even_ge z x : (inject_Z z <= x)%Q → z ≤ round_half_even x.
Proof. intros H. rewrite <- (round_half_even_Z z). by apply round_half_even_mono. Qed.

Lemma round_half_even_le z x : (x <= inject_Z z)%Q → round_half_even x ≤ z.
Proof. intros H. rewrite <- (round_half_even_Z z). by apply round_half_even_mono. Qed.

(** *** Powers of two *)

Lemma pow2_pos k : (0 < 2 ^ k)%Q.
Proof. by apply Qpower_0_lt. Qed.

Lemma pow2_add j k : (2 ^ (j + k) == 2 ^ j * 2 ^ k)%Q.
Proof. by apply Qpower_plus. Qed.

Lemma pow2_succ k : (2 ^ (k + 1) == 2 * 2 ^ k)%Q.
Proof. rewrite pow2_add. change (2 ^ 1)%Q with 2%Q. ring. Qed.

Lemma pow2_mono j k : j ≤ k → (2 ^ j <= 2 ^ k)%Q.
Proof. intros H. by apply Qpower_le_compat_l. Qed.

Lemma pow2_cancel j : (2 ^ j * 2 ^ (- j) == 1)%Q.
Proof. rewrite <- pow2_add, Z.add_opp_diag_r. reflexivity. Qed.

Lemma pow2_Z k : 0 ≤ k → (inject_Z (2 ^ k) == 2 ^ k)%Q.
Proof. intros H. by rewrite Zpower_Qpower. Qed.

(** *** The exponent *)

Lemma binade_spec x :
  (0 < x)%Q → (2 ^ binade x <= x ∧ x < 2 ^ (binade x + 1))%Q.
Proof.
  intros Hx. destruct x as [a b]. unfold binade. cbn [Qnum Qden].
  assert (0 < a) as Ha by (unfold Qlt in Hx; simpl in Hx; lia).
  set (la := Z.log2 a). set (lb := Z.log2 (Z.pos b)).
  destruct (Z.log2_spec a Ha) as [Ha1 Ha2].
  destruct (Z.log2_spec (Z.pos b) (Pos2Z.is_pos b)) as [Hb1 Hb2].
  fold la in Ha1, Ha2. fold lb in Hb1, Hb2.
  assert (0 ≤ la) as Hla by apply Z.log2_nonneg.
  assert (0 ≤ lb) as Hlb by apply Z.log2_nonneg.
  rewrite Zle_Qle in Ha1, Hb1. rewrite Zlt_Qlt in Ha2, Hb2.
  rewrite pow2_Z in Ha1, Hb1 by done.
  rewrite pow2_Z in Ha2, Hb2 by lia.
  unfold Z.succ in Ha2, Hb2. rewrite pow2_succ in Ha2, Hb2.
  pose proof (pow2_pos la) as Hpa. pose proof (pow2_pos lb) as Hpb.
  assert (2 ^ (la - lb) * 2 ^ lb == 2 ^ la)%Q as Hsplit.
  { rewrite <- pow2_add. by replace (la - lb + lb) with la by lia. }
  pose proof (pow2_pos (la - lb)) as Hpe.
  assert (a # b == inject_Z a / inject_Z (Z.pos b))%Q as Hfrac by apply Qmake_Qdiv.
  set (A := inject_Z a) in *. set (B := inject_Z (Z.pos b)) in *.
  assert (0 < B)%Q as HB by lra.
  assert (a # b < 2 ^ (la - lb + 1))%Q as Hupper.
  { rewrite Hfrac, pow2_succ. apply Qlt_shift_div_r; [done|]. nra. }
  assert (2 ^ (la - lb - 1) < a # b)%Q as Hlower.
  { rewrite Hfrac. apply Qlt_shift_div_l; [done|].
    assert (2 * 2 ^ (la - lb - 1) == 2 ^ (la - lb))%Q as Hhalf.
    { rewrite <- pow2_succ. by replace (la - lb - 1 + 1) with (la - lb) by lia. }
    pose proof (pow2_pos (la - lb - 1)). nra. }
  destruct (Qle_bool (2 ^ (la - lb)) (a # b)) eqn:Hle.
  - apply Qle_bool_iff in Hle. done.
  - split; [by apply Qlt_le_weak|].
    replace (la - lb - 1 + 1) with (la - lb) by lia.
    apply Qnot_le_lt. intros Hc. apply Qle_bool_iff in Hc. congruence.
Qed.

Lemma binade_unique x e :
  (2 ^ e <= x)%Q → (x < 2 ^ (e + 1))%Q → binade x = e.
Proof.
  intros Hlo Hhi.
  assert (0 < x)%Q as Hx by (pose proof (pow2_pos e); lra).
  destruct (binade_spec x Hx) as [Hlo' Hhi'].
  assert (binade x < e + 1).
  { apply (Qpower_lt_compat_l_inv 2); [lra|done]. }
  assert (e < binade x + 1).
  { apply (Qpower_lt_compat_l_inv 2); [lra|done]. }
  lia.
Qed.

Lemma binade_mono x y : (0 < x)%Q → (x <= y)%Q → binade x ≤ binade y.
Proof.
  intros Hx Hxy.
  destruct (binade_spec x Hx) as [Hlo _].
  destruct (binade_spec y) as [_ Hhi]; [lra|].
  assert (binade x < binade y + 1); [|lia].
  apply (Qpower_lt_compat_l_inv 2); [lra|done].
Qed.

(** *** Rounding to 53 significant bits *)

Lemma round_significand_scaled x :
  (0 < x)%Q →
  (inject_Z (2 ^ 52) <= x * 2 ^ (52 - binade x)
   ∧ x * 2 ^ (52 - binade x) < inject_Z (2 ^ 53))%Q.
Proof.
  intros Hx. destruct (binade_spec x Hx) as [Hlo Hhi].
  set (e := binade x) in *.
  pose proof (pow2_pos (52 - e)) as Hs.
  assert (2 ^ e * 2 ^ (52 - e) == inject_Z (2 ^ 52))%Q as H52.
  { rewrite <- pow2_add, pow2_Z by done. by replace (e + (52 - e)) with 52 by lia. }
  assert (2 ^ (e + 1) * 2 ^ (52 - e) == inject_Z (2 ^ 53))%Q as H53.
  { rewrite <- pow2_add, pow2_Z by done. by replace (e + 1 + (52 - e)) with 53 by lia. }
  rewrite <- H52, <- H53. split.
  - apply Qmult_le_compat_r; [done|]. by apply Qlt_le_weak.
  - by apply Qmult_lt_compat_r.
Qed.

Lemma round_significand_bounds x :
  (0 < x)%Q →
  (2 ^ binade x <= round_significand x
   ∧ round_significand x <= 2 ^ (binade x + 1))%Q.
Proof.
  intros Hx. destruct (round_significand_scaled x Hx) as [Hlo Hhi].
  unfold round_significand. set (e := binade x) in *.
  set (m := round_half_even (x * 2 ^ (52 - e))).
  assert (2 ^ 52 ≤ m) as Hm1 by by apply round_half_even_ge.
  assert (m ≤ 2 ^ 53) as Hm2 by by apply round_half_even_le, Qlt_le_weak.
  rewrite Zle_Qle in Hm1, Hm2.
  pose proof (pow2_pos (e - 52)) as Hs.
  assert (inject_Z (2 ^ 52) * 2 ^ (e - 52) == 2 ^ e)%Q as H52.
  { rewrite pow2_Z, <- pow2_add by done. by replace (52 + (e - 52)) with e by lia. }
  assert (inject_Z (2 ^ 53) * 2 ^ (e - 52) == 2 ^ (e + 1))%Q as H53.
  { rewrite pow2_Z, <- pow2_add by done. by replace (53 + (e - 52)) with (e + 1) by lia. }
  rewrite <- H52, <- H53. split; (apply Qmult_le_compat_r; [done|by apply Qlt_le_weak]).
Qed.

Lemma round_significand_mono x y :
  (0 < x)%Q → (x <= y)%Q → (round_significand x <= round_significand y)%Q.
Proof.
  intros Hx Hxy. assert (0 < y)%Q as Hy by lra.
  pose proof (binade_mono x y Hx Hxy) as He.
  destruct (decide (binade x = binade y)) as [Heq|Hne].
  - unfold round_significand. rewrite Heq.
    apply Qmult_le_compat_r; [|apply Qlt_le_weak, pow2_pos].
    rewrite <- Zle_Qle. apply round_half_even_mono.
    apply Qmult_le_compat_r; [done|apply Qlt_le_weak, pow2_pos].
  - destruct (round_significand_bounds x Hx) as [_ Hhi].
    destruct (round_significand_bounds y Hy) as [Hlo _].
    eapply Qle_trans; [exact Hhi|]. eapply Qle_trans; [|exact Hlo].
    apply pow2_mono. lia.
Qed.

(** The result is within half a unit in the last place: the relative
    error is at most [2^-53]. *)
Lemma round_significand_error x :
  (0 < x)%Q → (Qabs (round_significand x - x) <= x * 2 ^ (-53))%Q.
Proof.
  intros Hx. destruct (binade_spec x Hx) as [Hlo _].
  unfold round_significand. set (e := binade x) in *.
  destruct (round_half_even_near (x * 2 ^ (52 - e))) as [Hn1 Hn2].
  set (m := inject_Z (round_half_even (x * 2 ^ (52 - e)))) in *.
  pose proof (pow2_pos (e - 52)) as Hs. pose proof (pow2_pos (52 - e)) as Hs'.
  assert (2 ^ (52 - e) * 2 ^ (e - 52) == 1)%Q as Hinv.
  { rewrite <- pow2_add. by replace (52 - e + (e - 52)) with 0 by lia. }
  assert (2 ^ (e - 52) == 2 * (2 ^ e * 2 ^ (-53)))%Q as Hulp.
  { rewrite <- pow2_add, <- pow2_succ. by replace (e + -53 + 1) with (e - 52) by lia. }
  pose proof (pow2_pos (-53)) as H53.
  apply Qabs_diff_Qle_condition.
  assert (x * 2 ^ (52 - e) * 2 ^ (e - 52) == x)%Q as Hback
    by (rewrite <- Qmult_assoc, Hinv; ring).
  pose proof (Qmult_le_compat_r _ _ (2 ^ (e - 52)) Hn1 (Qlt_le_weak _ _ Hs)) as H1.
  pose proof (Qmult_le_compat_r _ _ (2 ^ (e - 52)) Hn2 (Qlt_le_weak _ _ Hs)) as H2.
  rewrite Hback in H1, H2.
  assert (2 ^ e * 2 ^ (-53) <= x * 2 ^ (-53))%Q as H3
    by (apply Qmult_le_compat_r; [done|by apply Qlt_le_weak]).
  split; lra.
Qed.

Lemma round_significand_exact x n :
  (0 < x)%Q → (x * 2 ^ (52 - binade x) == inject_Z n)%Q →
  (round_significand x == x)%Q.
Proof.
  intros Hx Hn. unfold round_significand. rewrite Hn, round_half_even_Z, <- Hn.
  rewrite <- Qmult_assoc, <- pow2_add.
  replace (52 - binade x + (binade x - 52)) with 0 by lia. change (2 ^ 0)%Q with 1%Q. ring.
Qed.

Lemma round_significand_int z :
  0 < z ≤ 2 ^ 53 → (round_significand (inject_Z z) == inject_Z z)%Q.
Proof.
  intros [Hz1 Hz2].
  assert (0 < inject_Z z)%Q as Hx by (change 0%Q with (inject_Z 0); by rewrite <- Zlt_Qlt).
  destruct (binade_spec _ Hx) as [Hlo _].
  set (e := binade (inject_Z z)) in *.
  assert (e ≤ 53) as He.
  { apply (Qpower_le_compat_l_inv 2); [|done].
    eapply Qle_trans; [exact Hlo|]. rewrite <- pow2_Z, <- Zle_Qle by done. done. }
  destruct (decide (e = 53)) as [He53|Hne].
  - assert (z = 2 ^ 53) as ->.
    { apply Z.le_antisymm; [done|]. rewrite Zle_Qle, pow2_Z by done.
      by rewrite <- He53. }
    apply (round_significand_exact _ (2 ^ 52)); [done|]. fold e. rewrite He53.
    reflexivity.
  - apply (round_significand_exact _ (z * 2 ^ (52 - e))); [done|]. fold e.
    rewrite inject_Z_mult, pow2_Z by lia. reflexivity.
Qed.

(** *** [round_float64] *)

Lemma round_float64_pos x :
  (0 < x)%Q → round_float64 x = Qred (round_significand x).
Proof.
  intros Hx. unfold round_float64.
  destruct (Qcompare_spec x 0) as [H|H|H]; [lra|lra|done].
Qed.

Lemma round_float64_neg x :
  (x < 0)%Q → round_float64 x = Qred (- round_significand (- x)).
Proof.
  intros Hx. unfold round_float64.
  destruct (Qcompare_spec x 0) as [H|H|H]; [lra|done|lra].
Qed.

Lemma round_float64_positive x : (0 < x)%Q → (0 < round_float64 x)%Q.
Proof.
  intros Hx. rewrite round_float64_pos, Qred_correct by done.
  destruct (round_significand_bounds x Hx) as [Hlo _].
  pose proof (pow2_pos (binade x)). lra.
Qed.

Lemma round_float64_mono x y :
  (0 < x)%Q → (x <= y)%Q → (round_float64 x <= round_float64 y)%Q.
Proof.
  intros Hx Hxy. rewrite !round_float64_pos, !Qred_correct by lra.
  by apply round_significand_mono.
Qed.

Lemma round_float64_error x :
  (0 < x)%Q → (Qabs (round_float64 x - x) <= x * 2 ^ (-53))%Q.
Proof.
  intros Hx. rewrite round_float64_pos, Qred_correct by done.
  by apply round_significand_error.
Qed.

Lemma Qred_inject_Z z : Qred (inject_Z z) = inject_Z z.
Proof.
  unfold inject_Z, Qred.
  pose proof (Z.ggcd_gcd z 1) as Hg. pose proof (Z.ggcd_correct_divisors z 1) as Hd.
  destruct (Z.ggcd z 1) as [g [r1 r2]]. simpl in Hg, Hd.
  rewrite Z.gcd_1_r in Hg. subst g. destruct Hd as [Hr1 Hr2].
  rewrite Z.mul_1_l in Hr1, Hr2. by rewrite <- Hr1, <- Hr2.
Qed.

(** float64 holds the integers of magnitude up to [2^53] exactly. *)
Lemma round_float64_int z :
  - 2 ^ 53 ≤ z ≤ 2 ^ 53 → round_float64 (inject_Z z) = inject_Z z.
Proof.
  intros Hz. destruct (Z.lt_trichotomy z 0) as [Hneg|[->|Hpos]].
  - rewrite round_float64_neg
      by (change 0%Q with (inject_Z 0); rewrite <- Zlt_Qlt; done).
    etrans; [|apply Qred_inject_Z]. apply Qred_complete.
    change (- inject_Z z)%Q with (inject_Z (- z)).
    pose proof (round_significand_int (- z) ltac:(lia)) as Hexact.
    rewrite Hexact, inject_Z_opp. ring.
  - reflexivity.
  - rewrite round_float64_pos
      by (change 0%Q with (inject_Z 0); rewrite <- Zlt_Qlt; done).
    etrans; [|apply Qred_inject_Z]. apply Qred_complete.
    apply round_significand_int. lia.
Qed.

(** ** Exceptions and indexing *)

Lemma try_except_same {A} (m : result A) : try_except m (λ _, m) = m.
Proof. by destruct m. Qed.

Lemma py_index_nat (n i : nat) :
  (i < n)%nat → py_index n (Z.of_nat i) = Ok i.
Proof.
  intros Hi. unfold py_index.
  destruct (decide _) as [_|Hn]; [by rewrite Nat2Z.id | lia].
Qed.

Lemma broadcast_fits {A} (e : exn) (n : nat) (v : list A) :
  length v = n → broadcast e n v = Ok v.
Proof. intros Hv. unfold broadcast. by rewrite decide_True. Qed.

Lemma setitem_row_nat (e : exn) (t : tensor) (i : nat) (v : list Q) :
  (i < t_rows t)%nat → length v = t_cols t →
  setitem_row e t (Z.of_nat i) v
  = Ok (Tensor (t_dtype t) (t_rows t) (t_cols t) (<[i := v]> (t_data t))).
Proof.
  intros Hi Hv. unfold setitem_row.
  rewrite py_index_nat by done. simpl.
  rewrite broadcast_fits by done. done.
Qed.

Section Encoder.

Variable word_tokenize : string → list string.
Variable uninitialised : nat → nat → Q.

Lemma append_id_lookup (vocab_dict : gmap string Z) word_ids token :
  append_id vocab_dict word_ids token
  = (id ← dict_getitem vocab_dict token; Ok (word_ids ++ [id])).
Proof. unfold append_id. apply try_except_same. Qed.

Lemma append_id_found (vocab_dict : gmap string Z) word_ids token id :
  vocab_dict !! token = Some id →
  append_id vocab_dict word_ids token = Ok (word_ids ++ [id]).
Proof.
  intros Hl. rewrite append_id_lookup. unfold dict_getitem. by rewrite Hl.
Qed.

Lemma append_id_missing (vocab_dict : gmap string Z) word_ids token :
  vocab_dict !! token = None →
  append_id vocab_dict word_ids token = Raise (KeyError token).
Proof.
  intros Hl. rewrite append_id_lookup. unfold dict_getitem. by rewrite Hl.
Qed.

(** The token loop on a covered sentence appends the id of each token. *)
Lemma word_ids_loop_covered (vocab_dict : gmap string Z) tokens word_ids :
  Forall (λ token, is_Some (vocab_dict !! token)) tokens →
  ∃ ids, word_ids_loop vocab_dict tokens word_ids = Ok (word_ids ++ ids)
         ∧ Forall2 (λ token id, vocab_dict !! token = Some id) tokens ids.
Proof.
  intros Hcov. revert word_ids.
  induction Hcov as [|token tokens [id Hid] _ IH]; intros word_ids.
  - exists []. by rewrite app_nil_r.
  - destruct (IH (word_ids ++ [id])) as (ids & Hrun & Hids).
    exists (id :: ids). split.
    + simpl. rewrite (append_id_found _ _ _ id) by done. simpl.
      rewrite Hrun. by rewrite <- app_assoc.
    + by constructor.
Qed.

(** The token loop stops at the first token the dictionary lacks. *)
Lemma word_ids_loop_missing (vocab_dict : gmap string Z) tokens word_ids :
  Exists (λ token, vocab_dict !! token = None) tokens →
  ∃ token, token ∈ tokens ∧ vocab_dict !! token = None
           ∧ word_ids_loop vocab_dict tokens word_ids = Raise (KeyError token).
Proof.
  revert word_ids. induction tokens as [|token tokens IH]; intros word_ids Hex.
  - by apply Exists_nil in Hex.
  - destruct (vocab_dict !! token) as [id|] eqn:Hl.
    + apply Exists_cons in Hex as [Hex|Hex]; [congruence|].
      destruct (IH (word_ids ++ [id]) Hex) as (token' & Hin & Hnone & Hrun).
      exists token'. split_and!; [by right | done |].
      simpl. rewrite (append_id_found _ _ _ id) by done. done.
    + exists token. split_and!; [by left | done |].
      simpl. by rewrite append_id_missing.
Qed.

Lemma word_ids_loop_length (vocab_dict : gmap string Z) tokens word_ids ids :
  word_ids_loop vocab_dict tokens word_ids = Ok ids →
  length ids = (length word_ids + length tokens)%nat.
Proof.
  revert word_ids. induction tokens as [|token tokens IH]; intros word_ids Hrun.
  - simpl in Hrun. injection Hrun as <-. simpl. lia.
  - simpl in Hrun. destruct (vocab_dict !! token) as [id|] eqn:Hl.
    + rewrite (append_id_found _ _ _ id) in Hrun by done. simpl in Hrun.
      apply IH in Hrun. rewrite length_app in Hrun. simpl in *. lia.
    + by rewrite append_id_missing in Hrun.
Qed.

Lemma length_fit_row pad_to word_ids :
  0 ≤ pad_to → length (fit_row pad_to word_ids) = Z.to_nat pad_to.
Proof.
  intros Hpad. unfold fit_row, truncates. case_bool_decide.
  - rewrite length_take. lia.
  - rewrite length_app, length_replicate. lia.
Qed.

Lemma convert_loop_covered (vocab_dict : gmap string Z) pad_to sentences :
  0 ≤ pad_to →
  Forall (λ s, Forall (λ token, is_Some (vocab_dict !! token)) (word_tokenize s))
    sentences →
  ∀ idx x,
    t_cols x = Z.to_nat pad_to →
    t_rows x = (idx + length sentences)%nat →
    length (t_data x) = t_rows x →
    ∃ rows, convert_loop word_tokenize vocab_dict pad_to idx sentences x
            = Ok (Tensor (t_dtype x) (t_rows x) (t_cols x)
                    (take idx (t_data x) ++ rows))
            ∧ Forall2 (encodes word_tokenize vocab_dict pad_to) sentences rows.
Proof.
  intros Hpad Hcov. induction Hcov as [|s sentences Hs _ IH];
    intros idx x Hcols Hrows Hlen.
  - exists []. split; [|constructor]. simpl in *.
    rewrite app_nil_r, take_ge by lia. by destruct x.
  - destruct (word_ids_loop_covered vocab_dict _ [] Hs) as (ids & Hrun & Hids).
    simpl in Hrun, Hrows.
    set (row := map inject_Z (fit_row pad_to ids)).
    assert (length row = t_cols x) as Hrow.
    { unfold row. rewrite length_map, length_fit_row by done. done. }
    destruct (IH (S idx)
                (Tensor (t_dtype x) (t_rows x) (t_cols x) (<[idx := row]> (t_data x))))
      as (rows & Hloop & Hrows'); simpl.
    { done. } { lia. } { by rewrite length_insert. }
    exists (row :: rows). split.
    + simpl. rewrite Hrun. simpl.
      rewrite setitem_row_nat by (done || lia). simpl.
      fold row. rewrite Hloop. simpl. do 2 f_equal.
      rewrite (take_S_r _ _ row) by (apply list_lookup_insert_eq; lia).
      rewrite take_insert_ge by lia. by rewrite <- app_assoc.
    + constructor; [|done]. by exists ids.
Qed.

Lemma convert_loop_missing (vocab_dict : gmap string Z) pad_to sentences :
  0 ≤ pad_to →
  Exists (λ s, Exists (λ token, vocab_dict !! token = None) (word_tokenize s))
    sentences →
  ∀ idx x,
    t_cols x = Z.to_nat pad_to →
    t_rows x = (idx + length sentences)%nat →
    ∃ s token, s ∈ sentences ∧ token ∈ word_tokenize s
             ∧ vocab_dict !! token = None
             ∧ convert_loop word_tokenize vocab_dict pad_to idx sentences x
               = Raise (KeyError token).
Proof.
  intros Hpad. induction sentences as [|s sentences IH];
    intros Hex idx x Hcols Hrows.
  - by apply Exists_nil in Hex.
  - destruct (decide (Exists (λ token, vocab_dict !! token = None) (word_tokenize s)))
      as [Hs|Hs].
    + destruct (word_ids_loop_missing vocab_dict _ [] Hs) as (token & Hin & Hnone & Hrun).
      exists s, token. split_and!; [by left | done | done |]. simpl. by rewrite Hrun.
    + apply Exists_cons in Hex as [Hex|Hex]; [done|].
      apply not_Exists_Forall in Hs; [|intros token; apply _].
      assert (Forall (λ token, is_Some (vocab_dict !! token)) (word_tokenize s)) as Hcov.
      { eapply Forall_impl; [exact Hs|]. simpl. intros token Hn.
        by apply not_eq_None_Some. }
      destruct (word_ids_loop_covered vocab_dict _ [] Hcov) as (ids & Hrun & _).
      simpl in Hrun, Hrows.
      set (row := map inject_Z (fit_row pad_to ids)).
      destruct (IH Hex (S idx)
                  (Tensor (t_dtype x) (t_rows x) (t_cols x) (<[idx := row]> (t_data x))))
        as (s' & token & Hs' & Hin & Hnone & Hloop); simpl; [done | lia |].
      exists s', token. split_and!; [by right | done | done |].
      simpl. rewrite Hrun. simpl.
      rewrite setitem_row_nat; [| lia |].
      * simpl. done.
      * rewrite length_map, length_fit_row by done. done.
Qed.

Lemma convert_to_ids_negative raw_sentences (vocab_dict : gmap string Z) pad_to :
  pad_to < 0 →
  convert_to_ids word_tokenize uninitialised raw_sentences vocab_dict pad_to
  = Raise ValueError.
Proof.
  intros Hneg. unfold convert_to_ids, np_empty. by rewrite decide_True.
Qed.

Lemma length_empty_data n m : length (empty_data uninitialised n m) = n.
Proof. unfold empty_data. by rewrite length_map, length_seq. Qed.

Lemma lookup_empty_data n m i :
  (i < n)%nat →
  empty_data uninitialised n m !! i = Some (map (uninitialised i) (seq 0 m)).
Proof.
  intros Hi. unfold empty_data.
  rewrite list_lookup_fmap, lookup_seq_lt by done. done.
Qed.

(** C2: a call whose sentences contain a token the vocabulary lacks
    returns no array; for a target length that is not negative it raises
    the lookup error of such a token.  The handler of the token loop is
    the lookup itself, so no fallback id is ever stored. *)
Theorem convert_to_ids_unknown_token raw_sentences (vocab_dict : gmap string Z)
    pad_to sentence token :
  sentence ∈ raw_sentences → token ∈ word_tokenize sentence →
  vocab_dict !! token = None →
  (∀ word_ids tok,
     append_id vocab_dict word_ids tok
     = (id ← dict_getitem vocab_dict tok; Ok (word_ids ++ [id])))
  ∧ ¬ is_Ok (convert_to_ids word_tokenize uninitialised raw_sentences vocab_dict pad_to)
  ∧ (0 ≤ pad_to →
     ∃ s missing, s ∈ raw_sentences ∧ missing ∈ word_tokenize s
       ∧ vocab_dict !! missing = None
       ∧ convert_to_ids word_tokenize uninitialised raw_sentences vocab_dict pad_to
         = Raise (KeyError missing)).
Proof.
  intros Hs Htok Hnone.
  assert (0 ≤ pad_to →
     ∃ s missing, s ∈ raw_sentences ∧ missing ∈ word_tokenize s
       ∧ vocab_dict !! missing = None
       ∧ convert_to_ids word_tokenize uninitialised raw_sentences vocab_dict pad_to
         = Raise (KeyError missing)) as Hkey.
  { intros Hpad. unfold convert_to_ids, np_empty.
    rewrite decide_False by lia. simpl.
    apply convert_loop_missing; simpl; [done | | done | done].
    apply Exists_exists. exists sentence. split; [done|].
    apply Exists_exists. by exists token. }
  split_and!; [apply append_id_lookup | | done].
  intros [x Hx]. destruct (decide (pad_to < 0)) as [Hneg|Hpos].
  - by rewrite convert_to_ids_negative in Hx.
  - destruct Hkey as (? & ? & _ & _ & _ & Hraise); [lia|]. congruence.
Qed.

(** C3, as amended: for a target length that is not negative and a
    vocabulary that covers every token with ids of magnitude at most
    [2^53], the encoder returns an array of NumPy's default element type
    (float64) and shape (number of sentences, pad_to), whose row for a
    sentence holds the ids of its tokens, cut to pad_to when there are
    more, and followed by zeros up to pad_to otherwise.  Every entry is
    an integer that float64 holds exactly, so that storing it in the
    array does not round it. *)
Theorem convert_to_ids_rows raw_sentences (vocab_dict : gmap string Z) pad_to :
  0 ≤ pad_to →
  (∀ s token, s ∈ raw_sentences → token ∈ word_tokenize s →
              is_Some (vocab_dict !! token)) →
  (∀ token id, vocab_dict !! token = Some id → - 2 ^ 53 ≤ id ≤ 2 ^ 53) →
  ∃ x, convert_to_ids word_tokenize uninitialised raw_sentences vocab_dict pad_to = Ok x
       ∧ t_dtype x = float64
       ∧ t_rows x = length raw_sentences ∧ Z.of_nat (t_cols x) = pad_to
       ∧ length (t_data x) = length raw_sentences
       ∧ ∀ i s, raw_sentences !! i = Some s →
           ∃ ids row,
             Forall2 (λ tok id, vocab_dict !! tok = Some id) (word_tokenize s) ids
             ∧ t_data x !! i = Some (map inject_Z row)
             ∧ Forall (λ id, round_float64 (inject_Z id) = inject_Z id) row
             ∧ Z.of_nat (length row) = pad_to
             ∧ (pad_to < Z.of_nat (length ids) → row = take (Z.to_nat pad_to) ids)
             ∧ (Z.of_nat (length ids) ≤ pad_to →
                row = ids ++ replicate (Z.to_nat pad_to - length ids) 0).
Proof.
  intros Hpad Hcov Hbound. unfold convert_to_ids, np_empty.
  rewrite decide_False by lia. simpl.
  assert (Forall (λ s, Forall (λ token, is_Some (vocab_dict !! token)) (word_tokenize s))
            raw_sentences) as Hall.
  { apply Forall_forall. intros s Hs. apply Forall_forall. intros tok Htok. eauto. }
  set (x0 := Tensor float64 (length raw_sentences) (Z.to_nat pad_to)
               (empty_data uninitialised (length raw_sentences) (Z.to_nat pad_to))).
  destruct (convert_loop_covered vocab_dict pad_to raw_sentences Hpad Hall 0%nat x0)
    as (rows & Hloop & Hrows); simpl.
  { done. } { done. } { by rewrite length_empty_data. }
  rewrite Hloop. simpl. eexists. split; [done|]. simpl.
  split_and!; [done | done | lia | by erewrite <- Forall2_length | ].
  intros i s Hi.
  destruct (Forall2_lookup_l _ _ _ _ _ Hrows Hi) as (row & Hrow & ids & Hids & ->).
  exists ids, (fit_row pad_to ids). split_and!; [done | done | | | |].
  - assert (Forall (λ id, - 2 ^ 53 ≤ id ≤ 2 ^ 53) ids) as Hids_bound.
    { apply Forall_forall. intros id Hid.
      apply list_elem_of_lookup in Hid as [k Hk].
      destruct (Forall2_lookup_r _ _ _ _ _ Hids Hk) as (tok & _ & Htok).
      by eapply Hbound. }
    apply (Forall_impl (λ id, - 2 ^ 53 ≤ id ≤ 2 ^ 53));
      [|intros id Hid; by apply round_float64_int].
    unfold fit_row. destruct (truncates pad_to ids).
    + by apply Forall_take.
    + apply Forall_app. split; [done|].
      apply Forall_replicate. by split.
  - rewrite length_fit_row by done. lia.
  - intros Hlt. unfold fit_row, truncates. by rewrite bool_decide_eq_true_2.
  - intros Hle. unfold fit_row, truncates.
    rewrite bool_decide_eq_false_2 by lia. do 2 f_equal. lia.
Qed.

End Encoder.

(** ** The encoder on concrete sentences *)

Example convert_to_ids_example :
  convert_to_ids ws_tokenize filler ["a good movie"; "bad"]
    {[ "a" := 3; "good" := 1; "movie" := 2; "bad" := 4 ]} 2
  = Ok (Tensor float64 2 2 [[3%Q; 1%Q]; [4%Q; 0%Q]]).
Proof. vm_compute. reflexivity. Qed.

(** float64 does not hold every larger integer: [2^53 + 1] is stored as
    [2^53]. *)
Example round_float64_large_id :
  round_float64 (inject_Z (2 ^ 53 + 1)) = inject_Z (2 ^ 53).
Proof. vm_compute. reflexivity. Qed.

Lemma convert_to_ids_unknown_token_witness :
  "good movie" ∈ ["good movie"]
  ∧ "movie" ∈ ws_tokenize "good movie"
  ∧ ({[ "good" := 1 ]} : gmap string Z) !! "movie" = None
  ∧ ¬ is_Ok (convert_to_ids ws_tokenize filler ["good movie"] {[ "good" := 1 ]} 2).
Proof.
  assert ("good movie" ∈ ["good movie"]) as Hs by repeat constructor.
  assert ("movie" ∈ ws_tokenize "good movie") as Htok by (vm_compute; repeat constructor).
  assert (({[ "good" := 1 ]} : gmap string Z) !! "movie" = None) as Hnone by reflexivity.
  split_and!; [done..|].
  exact (proj1 (proj2 (convert_to_ids_unknown_token ws_tokenize filler
    ["good movie"] {[ "good" := 1 ]} 2 "good movie" "movie" Hs Htok Hnone))).
Defined.

(** The array the encoder returns is not of an integer element type. *)
Lemma convert_to_ids_not_integer :
  ¬ ∃ x, convert_to_ids ws_tokenize filler ["good movie"]
           {[ "good" := 1; "movie" := 2 ]} 3 = Ok x
         ∧ t_dtype x = int64.
Proof.
  intros (x & Hx & Hd). vm_compute in Hx. injection Hx as <-. discriminate Hd.
Qed.

Lemma convert_to_ids_rows_witness :
  0 ≤ 3
  ∧ ∃ x, convert_to_ids ws_tokenize filler ["good movie"]
           {[ "good" := 1; "movie" := 2 ]} 3 = Ok x
         ∧ t_dtype x = float64
         ∧ t_data x !! 0%nat = Some [1%Q; 2%Q; 0%Q].
Proof.
  split; [lia|].
  destruct (convert_to_ids_rows ws_tokenize filler ["good movie"]
              {[ "good" := 1; "movie" := 2 ]} 3) as (x & Hx & Hd & _).
  - lia.
  - intros s token Hs Htok.
    apply list_elem_of_singleton in Hs as ->.
    vm_compute in Htok.
    apply elem_of_cons in Htok as [->|Htok]; [by eexists|].
    apply list_elem_of_singleton in Htok as ->. by eexists.
  - intros token id Hid.
    apply lookup_insert_Some in Hid as [[_ <-]|[_ Hid]]; [by split|].
    apply lookup_singleton_Some in Hid as [_ <-]. by split.
  - exists x. split_and!; [done | done |].
    vm_compute in Hx. by injection Hx as <-.
Defined.

(** ** The vocabulary builder *)

Lemma dict_of_pairs_snoc (pairs : list (string * Z)) k v :
  dict_of_pairs (pairs ++ [(k, v)]) = <[k := v]> (dict_of_pairs pairs).
Proof. unfold dict_of_pairs. by rewrite foldl_app. Qed.

Lemma dict_of_pairs_lookup (pairs : list (string * Z)) k v :
  NoDup pairs.*1 →
  dict_of_pairs pairs !! k = Some v ↔ (k, v) ∈ pairs.
Proof.
  induction pairs as [|[k0 v0] pairs IH] using rev_ind; intros Hnd.
  - unfold dict_of_pairs. simpl. rewrite lookup_empty. split; [done|].
    intros Hin. by apply elem_of_nil in Hin.
  - rewrite fmap_app in Hnd. apply NoDup_app in Hnd as (Hnd & Hfresh & _).
    rewrite dict_of_pairs_snoc, elem_of_app, list_elem_of_singleton.
    destruct (decide (k = k0)) as [->|Hne].
    + rewrite lookup_insert_eq. split.
      * intros [= ->]. by right.
      * intros [Hin|[= ->]]; [|done]. exfalso.
        apply (Hfresh k0); [|simpl; by left].
        apply list_elem_of_fmap. by exists (k0, v).
    + rewrite lookup_insert_ne by done. rewrite IH by done.
      split; [by left|]. intros [Hin|[= -> _]]; done.
Qed.

Lemma dict_of_pairs_list_to_map (pairs : list (string * Z)) :
  NoDup pairs.*1 → dict_of_pairs pairs = list_to_map pairs.
Proof.
  intros Hnd. apply map_eq. intros k. apply option_eq. intros v.
  rewrite dict_of_pairs_lookup by done. by rewrite <- elem_of_list_to_map.
Qed.

(** The pairs of a key list with the ids [1, 2, ...]. *)
Lemma elem_of_zip_ids (keys : list string) k v :
  (k, v) ∈ zip keys (seqZ 1 (Z.of_nat (length keys)))
  ↔ ∃ i : nat, keys !! i = Some k ∧ v = 1 + Z.of_nat i.
Proof.
  rewrite list_elem_of_lookup. split.
  - intros (i & Hi). apply lookup_zip_with_Some in Hi as (k' & v' & [= -> ->] & Hk & Hv).
    apply lookup_seqZ in Hv as [-> _]. by exists i.
  - intros (i & Hk & ->). exists i. apply lookup_zip_with_Some.
    exists k, (1 + Z.of_nat i). split_and!; [done..|].
    apply lookup_seqZ. split; [done|]. apply lookup_lt_Some in Hk. lia.
Qed.

Lemma fst_zip_ids (keys : list string) :
  (zip keys (seqZ 1 (Z.of_nat (length keys)))).*1 = keys.
Proof. apply fst_zip. rewrite length_seqZ. lia. Qed.

Section Vocabulary.

Variable word_tokenize : string → list string.
Variable set_iter : list string → list string.

(** Iterating a set yields each of its elements once. *)
Hypothesis set_iter_NoDup : ∀ l, NoDup (set_iter l).
Hypothesis set_iter_elem : ∀ l x, x ∈ set_iter l ↔ x ∈ l.

Lemma vocab_loop_from sentences tokens (m : nat) :
  foldl (vocab_step word_tokenize) (tokens, Z.of_nat m) sentences
  = (tokens ++ corpus_tokens word_tokenize sentences,
     Z.of_nat (m `max` longest word_tokenize sentences)).
Proof.
  revert tokens m. induction sentences as [|s sentences IH]; intros tokens m.
  - simpl. unfold corpus_tokens, longest. simpl.
    by rewrite app_nil_r, Nat.max_0_r.
  - simpl. unfold vocab_step at 2. simpl.
    assert ((if bool_decide (Z.of_nat m < Z.of_nat (length (word_tokenize s)))
             then Z.of_nat (length (word_tokenize s)) else Z.of_nat m)
            = Z.of_nat (m `max` length (word_tokenize s))) as ->.
    { case_bool_decide; f_equal; lia. }
    rewrite IH. unfold corpus_tokens, longest. simpl.
    rewrite <- app_assoc. do 2 f_equal. lia.
Qed.

Lemma vocab_loop_spec sentences :
  vocab_loop word_tokenize sentences
  = (corpus_tokens word_tokenize sentences,
     Z.of_nat (longest word_tokenize sentences)).
Proof. unfold vocab_loop. by rewrite (vocab_loop_from _ [] 0%nat). Qed.

Lemma set_iter_length tokens :
  length (set_iter tokens) = length (remove_dups tokens).
Proof.
  apply Permutation_length, NoDup_Permutation.
  - apply set_iter_NoDup.
  - apply NoDup_remove_dups.
  - intros x. by rewrite set_iter_elem, elem_of_remove_dups.
Qed.

(** The dictionary built from the distinct tokens. *)
Lemma token_vocab_lookup tokens k v :
  dict_of_pairs (zip (set_iter tokens) (seqZ 1 (Z.of_nat (length (set_iter tokens)))))
    !! k = Some v
  ↔ ∃ i : nat, set_iter tokens !! i = Some k ∧ v = 1 + Z.of_nat i.
Proof.
  rewrite dict_of_pairs_lookup by (rewrite fst_zip_ids; apply set_iter_NoDup).
  apply elem_of_zip_ids.
Qed.

Lemma extract_vocab_dict_and_msl_unfold train dev val :
  extract_vocab_dict_and_msl word_tokenize set_iter train dev val
  = (let keys := set_iter (corpus_tokens word_tokenize (train ++ dev ++ val)) in
     dict_of_pairs (zip keys (seqZ 1 (Z.of_nat (length keys)))),
     Z.of_nat (longest word_tokenize (train ++ dev ++ val))).
Proof. unfold extract_vocab_dict_and_msl. by rewrite vocab_loop_spec. Qed.

(** The vocabulary covers the tokens of the three collections, and the
    returned length bounds the token count of each of their sentences. *)
Lemma token_vocab_covers train dev val token :
  token ∈ corpus_tokens word_tokenize (train ++ dev ++ val) →
  is_Some ((extract_vocab_dict_and_msl word_tokenize set_iter train dev val).1 !! token).
Proof.
  rewrite extract_vocab_dict_and_msl_unfold. simpl.
  rewrite <- set_iter_elem, list_elem_of_lookup. intros [i Hi].
  exists (1 + Z.of_nat i). apply token_vocab_lookup. eauto.
Qed.

Lemma ms_len_bounds train dev val sentence :
  sentence ∈ train ++ dev ++ val →
  Z.of_nat (length (word_tokenize sentence))
  ≤ (extract_vocab_dict_and_msl word_tokenize set_iter train dev val).2.
Proof.
  intros Hs. rewrite extract_vocab_dict_and_msl_unfold. simpl.
  unfold longest. apply inj_le, max_list_elem_of_le.
  apply list_elem_of_fmap. by exists sentence.
Qed.

(** C6: the vocabulary builder maps exactly the tokens of the three
    collections, compared as strings, to ids; the ids lie in
    [1, N_distinct], distinct tokens get distinct ids and every id of
    1..N_distinct is used; the second component is the largest token count
    of a sentence; three empty collections give the empty mapping and 0. *)
Theorem extract_vocab_dict_and_msl_spec train dev val :
  let sentences := train ++ dev ++ val in
  let tokens := corpus_tokens word_tokenize sentences in
  let n_distinct := length (remove_dups tokens) in
  let token_vocab := (extract_vocab_dict_and_msl word_tokenize set_iter train dev val).1 in
  let ms_len := (extract_vocab_dict_and_msl word_tokenize set_iter train dev val).2 in
  (∀ token, is_Some (token_vocab !! token) ↔ token ∈ tokens)
  ∧ (∀ token id, token_vocab !! token = Some id → 1 ≤ id ≤ Z.of_nat n_distinct)
  ∧ (∀ token1 token2 id,
       token_vocab !! token1 = Some id → token_vocab !! token2 = Some id →
       token1 = token2)
  ∧ (∀ id, 1 ≤ id ≤ Z.of_nat n_distinct → ∃ token, token_vocab !! token = Some id)
  ∧ size token_vocab = n_distinct
  ∧ ms_len = Z.of_nat (max_list (map (λ s, length (word_tokenize s)) sentences))
  ∧ (∀ s, s ∈ sentences → Z.of_nat (length (word_tokenize s)) ≤ ms_len)
  ∧ (sentences ≠ [] →
     ∃ s, s ∈ sentences ∧ ms_len = Z.of_nat (length (word_tokenize s)))
  ∧ extract_vocab_dict_and_msl word_tokenize set_iter [] [] [] = (∅, 0).
Proof.
  intros sentences tokens n_distinct token_vocab ms_len.
  unfold token_vocab, ms_len. rewrite extract_vocab_dict_and_msl_unfold. simpl.
  fold sentences tokens.
  pose proof (set_iter_length tokens) as Hlen. fold n_distinct in Hlen.
  split_and!.
  - intros token. rewrite <- set_iter_elem, list_elem_of_lookup. split.
    + intros [id Hid]. apply token_vocab_lookup in Hid as (i & Hi & _); eauto.
    + intros [i Hi]. exists (1 + Z.of_nat i). apply token_vocab_lookup; eauto.
  - intros token id Hid. apply token_vocab_lookup in Hid as (i & Hi & ->); [|done..].
    apply lookup_lt_Some in Hi. lia.
  - intros token1 token2 id H1 H2.
    apply token_vocab_lookup in H1 as (i & Hi & ->); [|done..].
    apply token_vocab_lookup in H2 as (j & Hj & Heq); [|done..].
    assert (i = j) as -> by lia. congruence.
  - intros id Hid.
    destruct (lookup_lt_is_Some_2 (set_iter tokens) (Z.to_nat (id - 1))) as [token Htok];
      [lia|].
    exists token. apply token_vocab_lookup; [done..|].
    exists (Z.to_nat (id - 1)). split; [done|lia].
  - rewrite dict_of_pairs_list_to_map by (rewrite fst_zip_ids; apply set_iter_NoDup).
    rewrite map_size_list_to_map by (rewrite fst_zip_ids; apply set_iter_NoDup).
    rewrite length_zip_with, length_seqZ. lia.
  - done.
  - intros s Hs. unfold longest. apply inj_le, max_list_elem_of_le.
    apply list_elem_of_fmap. by exists s.
  - intros Hne. unfold longest.
    assert (max_list (map (λ s, length (word_tokenize s)) sentences)
            ∈ map (λ s, length (word_tokenize s)) sentences) as Hin.
    { apply max_list_elem_of. by destruct sentences. }
    apply list_elem_of_fmap in Hin as (s & Hs & Hin). exists s. split; [done|].
    by rewrite Hs.
  - rewrite extract_vocab_dict_and_msl_unfold. simpl.
    unfold corpus_tokens, longest. simpl.
    assert (set_iter [] = []) as ->.
    { destruct (set_iter []) as [|x l] eqn:Hs; [done|].
      assert (x ∈ x :: l) as Hx by left.
      rewrite <- Hs in Hx. apply (proj1 (set_iter_elem _ _)) in Hx.
      by apply elem_of_nil in Hx. }
    done.
Qed.

(** No row is cut when the target length bounds the token counts. *)
Lemma truncates_false_bounded (vocab_dict : gmap string Z) pad_to sentence word_ids :
  Z.of_nat (length (word_tokenize sentence)) ≤ pad_to →
  word_ids_loop vocab_dict (word_tokenize sentence) [] = Ok word_ids →
  truncates pad_to word_ids = false.
Proof.
  intros Hle Hrun. apply word_ids_loop_length in Hrun. simpl in Hrun.
  unfold truncates. apply bool_decide_eq_false_2. lia.
Qed.

(** C7: with the target length set to the largest token count of the
    sentences being encoded, the branch that cuts a row is never taken;
    in particular, with the vocabulary and the length returned by the
    vocabulary builder for the three splits, every sentence of every
    split is encoded and only padded. *)
Theorem convert_to_ids_never_truncates train dev val :
  (∀ (vocab_dict : gmap string Z) raw_sentences pad_to sentence word_ids,
     pad_to = Z.of_nat (max_list (map (λ s, length (word_tokenize s)) raw_sentences)) →
     sentence ∈ raw_sentences →
     word_ids_loop vocab_dict (word_tokenize sentence) [] = Ok word_ids →
     truncates pad_to word_ids = false)
  ∧ (let token_ids := (extract_vocab_dict_and_msl word_tokenize set_iter train dev val).1 in
     let msl := (extract_vocab_dict_and_msl word_tokenize set_iter train dev val).2 in
     msl = Z.of_nat (max_list (map (λ s, length (word_tokenize s)) (train ++ dev ++ val)))
     ∧ ∀ split sentence, split ∈ [train; dev; val] → sentence ∈ split →
         ∃ word_ids,
           word_ids_loop token_ids (word_tokenize sentence) [] = Ok word_ids
           ∧ truncates msl word_ids = false
           ∧ fit_row msl word_ids
             = word_ids ++ replicate (Z.to_nat msl - length word_ids) 0).
Proof.
  split.
  - intros vocab_dict raw_sentences pad_to sentence word_ids -> Hin Hrun.
    eapply truncates_false_bounded; [|done].
    apply inj_le, max_list_elem_of_le, list_elem_of_fmap. by exists sentence.
  - cbv zeta. split.
    { by rewrite extract_vocab_dict_and_msl_unfold. }
    intros split sentence Hsplit Hin.
    assert (sentence ∈ train ++ dev ++ val) as Hall.
    { rewrite !elem_of_app. rewrite !elem_of_cons in Hsplit.
      destruct Hsplit as [->|[->|[->|Hnil]]]; auto. by apply elem_of_nil in Hnil. }
    destruct (word_ids_loop_covered
                (extract_vocab_dict_and_msl word_tokenize set_iter train dev val).1
                (word_tokenize sentence) []) as (word_ids & Hrun & _).
    { apply Forall_forall. intros token Htok. apply token_vocab_covers.
      unfold corpus_tokens. apply list_elem_of_bind. by exists sentence. }
    rewrite app_nil_l in Hrun. exists word_ids. split; [exact Hrun|].
    pose proof (truncates_false_bounded _ _ _ _ (ms_len_bounds _ _ _ _ Hall) Hrun) as Htr.
    split; [done|]. unfold fit_row. rewrite Htr.
    apply word_ids_loop_length in Hrun. do 2 f_equal. lia.
Qed.

End Vocabulary.

(** ** The vocabulary builder on concrete sentences *)

Lemma dedup_order_NoDup l : NoDup (dedup_order l).
Proof. apply NoDup_remove_dups. Qed.

Lemma dedup_order_elem l x : x ∈ dedup_order l ↔ x ∈ l.
Proof. apply elem_of_remove_dups. Qed.

Example extract_vocab_dict_and_msl_example :
  extract_vocab_dict_and_msl ws_tokenize dedup_order
    ["The movie"; "the good movie"] ["bad"] []
  = ({[ "The" := 1; "the" := 2; "good" := 3; "movie" := 4; "bad" := 5 ]}, 3).
Proof. vm_compute. reflexivity. Qed.

Lemma extract_vocab_dict_and_msl_spec_witness :
  (∀ l, NoDup (dedup_order l))
  ∧ (∀ l x, x ∈ dedup_order l ↔ x ∈ l)
  ∧ size (extract_vocab_dict_and_msl ws_tokenize dedup_order
            ["The movie"; "the good movie"] ["bad"] []).1 = 5%nat
  ∧ (extract_vocab_dict_and_msl ws_tokenize dedup_order
       ["The movie"; "the good movie"] ["bad"] []).2 = 3.
Proof.
  split_and!; [apply dedup_order_NoDup | apply dedup_order_elem | |].
  - pose proof (extract_vocab_dict_and_msl_spec ws_tokenize dedup_order
                  dedup_order_NoDup dedup_order_elem
                  ["The movie"; "the good movie"] ["bad"] []) as Hspec.
    cbv zeta in Hspec. destruct Hspec as (_ & _ & _ & _ & Hsize & _).
    rewrite Hsize. vm_compute. reflexivity.
  - pose proof (extract_vocab_dict_and_msl_spec ws_tokenize dedup_order
                  dedup_order_NoDup dedup_order_elem
                  ["The movie"; "the good movie"] ["bad"] []) as Hspec.
    cbv zeta in Hspec. destruct Hspec as (_ & _ & _ & _ & _ & Hmsl & _).
    rewrite Hmsl. vm_compute. reflexivity.
Defined.

Lemma convert_to_ids_never_truncates_witness :
  (∀ l, NoDup (dedup_order l))
  ∧ (∀ l x, x ∈ dedup_order l ↔ x ∈ l)
  ∧ ∃ word_ids,
      word_ids_loop
        (extract_vocab_dict_and_msl ws_tokenize dedup_order
           ["The movie"; "the good movie"] ["bad"] []).1
        (ws_tokenize "bad") [] = Ok word_ids
      ∧ truncates
          (extract_vocab_dict_and_msl ws_tokenize dedup_order
             ["The movie"; "the good movie"] ["bad"] []).2 word_ids = false.
Proof.
  split_and!; [apply dedup_order_NoDup | apply dedup_order_elem |].
  pose proof (convert_to_ids_never_truncates ws_tokenize dedup_order
                dedup_order_NoDup dedup_order_elem
                ["The movie"; "the good movie"] ["bad"] []) as [_ Hpipe].
  cbv zeta in Hpipe. destruct Hpipe as [_ Hpipe].
  destruct (Hpipe ["bad"] "bad") as (word_ids & Hrun & Htr & _).
  - repeat constructor.
  - repeat constructor.
  - by exists word_ids.
Defined.

(** ** The embedding table *)

Lemma py_index_in_range (n : nat) (i : Z) :
  0 ≤ i < Z.of_nat n → py_index n i = Ok (Z.to_nat i).
Proof. intros Hi. unfold py_index. by rewrite decide_True. Qed.

Lemma setitem_row_in_range (e : exn) (t : tensor) (i : Z) (v : list Q) :
  0 ≤ i < Z.of_nat (t_rows t) → length v = t_cols t →
  setitem_row e t i v
  = Ok (Tensor (t_dtype t) (t_rows t) (t_cols t) (<[Z.to_nat i := v]> (t_data t))).
Proof.
  intros Hi Hv. unfold setitem_row.
  rewrite py_index_in_range by done. simpl.
  rewrite broadcast_fits by done. done.
Qed.

(** The row loop writes, at every id of its list, the pretrained vector
    of the id, or the all-ones vector when there is none, and leaves the
    other rows as they are. *)
Lemma glove_loop_rows (glove_dict : gmap Z (list Q)) ids :
  ∀ t,
    t_cols t = 50%nat → length (t_data t) = t_rows t →
    Forall (λ id, 0 ≤ id < Z.of_nat (t_rows t)) ids →
    Forall (λ id, ∀ v, glove_dict !! id = Some v → length v = 50%nat) ids →
    ∃ data,
      glove_loop glove_dict ids t = Ok (Tensor (t_dtype t) (t_rows t) (t_cols t) data)
      ∧ length data = t_rows t
      ∧ ∀ i : nat,
          data !! i = if decide (Z.of_nat i ∈ ids)
                      then Some (default (ones 50) (glove_dict !! Z.of_nat i))
                      else t_data t !! i.
Proof.
  induction ids as [|id ids IH]; intros t Hcols Hlen Hrange Hvec.
  - exists (t_data t). split_and!; [by destruct t | done |].
    intros i. rewrite decide_False; [done|]. apply not_elem_of_nil.
  - apply Forall_cons in Hrange as [Hid Hrange].
    apply Forall_cons in Hvec as [Hv Hvec].
    set (row := default (ones 50) (glove_dict !! id)).
    assert (length row = t_cols t) as Hrow.
    { unfold row. destruct (glove_dict !! id) as [v|] eqn:Hl; simpl.
      - rewrite Hcols. by apply Hv.
      - rewrite Hcols. reflexivity. }
    assert (match glove_dict !! id with
            | Some v => setitem_row RuntimeError t id v
            | None => setitem_row RuntimeError t id (ones 50)
            end
            = Ok (Tensor (t_dtype t) (t_rows t) (t_cols t)
                    (<[Z.to_nat id := row]> (t_data t)))) as Hset.
    { unfold row in *. destruct (glove_dict !! id) as [v|]; simpl in *;
        by apply setitem_row_in_range. }
    destruct (IH (Tensor (t_dtype t) (t_rows t) (t_cols t)
                    (<[Z.to_nat id := row]> (t_data t))))
      as (data & Hloop & Hdata & Hrows); simpl; [done | by rewrite length_insert | done..|].
    exists data. split_and!; [| done |].
    + simpl. rewrite Hset. simpl. exact Hloop.
    + intros i. rewrite Hrows. simpl.
      destruct (decide (Z.of_nat i ∈ ids)) as [Hin|Hnin].
      * rewrite decide_True; [done|]. by right.
      * destruct (decide (Z.of_nat i = id)) as [Heq|Hne].
        -- rewrite decide_True by (rewrite Heq; by left).
           subst id. rewrite Nat2Z.id.
           rewrite list_lookup_insert_eq by lia. done.
        -- rewrite decide_False.
           ++ apply list_lookup_insert_ne. lia.
           ++ intros [?|?]%elem_of_cons; done.
Qed.

Section EmbeddingTable.

Variable uninitialised : nat → nat → Q.

Variable vocab_dict : gmap string Z.
Variable glove_dict : gmap Z (list Q).

(** The vocabulary assigns the ids 1..V, where V is its size. *)
Hypothesis vocab_ids :
  ∀ id, id ∈ dict_values vocab_dict ↔ 1 ≤ id ≤ Z.of_nat (size vocab_dict).

(** The pretrained vectors of the vocabulary ids have 50 components. *)
Hypothesis glove_dim :
  ∀ id v, 1 ≤ id ≤ Z.of_nat (size vocab_dict) → glove_dict !! id = Some v →
          length v = 50%nat.

Lemma elem_of_sorted_values id :
  id ∈ sorted (dict_values vocab_dict) ↔ 1 ≤ id ≤ Z.of_nat (size vocab_dict).
Proof. unfold sorted. by rewrite merge_sort_Permutation. Qed.

Lemma get_glove_table_data :
  ∃ data,
    get_glove_table uninitialised vocab_dict glove_dict
    = Ok (Tensor float32 (size vocab_dict + 2) 50 data)
    ∧ length data = (size vocab_dict + 2)%nat
    ∧ ∀ i : nat,
        data !! i =
          if decide (i = 0%nat) then Some (zeros 50)
          else if decide (i ≤ size vocab_dict)%nat
               then Some (default (ones 50) (glove_dict !! Z.of_nat i))
               else empty_data uninitialised (size vocab_dict + 2) 50 !! i.
Proof.
  destruct (glove_loop_rows glove_dict (sorted (dict_values vocab_dict))
              (torch_empty uninitialised (size vocab_dict + 2) 50))
    as (data & Hloop & Hlen & Hrows); simpl.
  - done.
  - by rewrite length_empty_data.
  - apply Forall_forall. intros id Hid%elem_of_sorted_values.
    unfold torch_empty. simpl. lia.
  - apply Forall_forall. intros id Hid%elem_of_sorted_values v. by apply glove_dim.
  - unfold torch_empty in Hlen, Hrows. simpl in Hlen, Hrows.
    exists (<[0%nat := zeros 50]> data). split_and!.
    + unfold get_glove_table. rewrite Hloop. simpl.
      rewrite setitem_row_in_range; simpl; [done | lia | reflexivity].
    + by rewrite length_insert.
    + intros i. destruct (decide (i = 0%nat)) as [->|Hne].
      * rewrite list_lookup_insert_eq by lia. done.
      * rewrite list_lookup_insert_ne by done. rewrite Hrows.
        destruct (decide (i ≤ size vocab_dict)%nat) as [Hle|Hgt].
        -- rewrite decide_True; [done|]. apply elem_of_sorted_values. lia.
        -- rewrite decide_False; [done|]. rewrite elem_of_sorted_values. lia.
Qed.

(** C4: for a vocabulary with the ids 1..V and pretrained vectors of 50
    components, the table has shape (V+2, 50), its row 0 is the zero
    vector, the row of an id with a pretrained vector is that vector, and
    the row of an id without one is the all-ones vector. *)
Theorem get_glove_table_rows :
  ∃ table,
    get_glove_table uninitialised vocab_dict glove_dict = Ok table
    ∧ t_rows table = (size vocab_dict + 2)%nat ∧ t_cols table = 50%nat
    ∧ length (t_data table) = (size vocab_dict + 2)%nat
    ∧ t_data table !! 0%nat = Some (replicate 50 0%Q)
    ∧ (∀ id v, 1 ≤ id ≤ Z.of_nat (size vocab_dict) → glove_dict !! id = Some v →
               t_data table !! Z.to_nat id = Some v)
    ∧ (∀ id, 1 ≤ id ≤ Z.of_nat (size vocab_dict) → glove_dict !! id = None →
             t_data table !! Z.to_nat id = Some (replicate 50 1%Q)).
Proof.
  destruct get_glove_table_data as (data & Htable & Hlen & Hrows).
  eexists. split; [exact Htable|]. simpl.
  assert (∀ id, 1 ≤ id ≤ Z.of_nat (size vocab_dict) →
            data !! Z.to_nat id = Some (default (ones 50) (glove_dict !! id))) as Hid.
  { intros id Hid. rewrite Hrows.
    rewrite decide_False, decide_True by lia. by rewrite Z2Nat.id by lia. }
  split_and!; [done | done | done | | |].
  - by rewrite Hrows.
  - intros id v Hrange Hv. rewrite Hid by done. by rewrite Hv.
  - intros id Hrange Hnone. rewrite Hid by done. by rewrite Hnone.
Qed.

(** C10: the table builder assigns only row 0 and the rows of the ids
    1..V; every later row, and so the last row V+1 of the V+2 rows, keeps
    the contents the allocation gave it, and the copy into the embedding
    weight of vocab_size+2 rows carries that row along. *)
Theorem get_glove_table_last_row :
  ∃ table,
    get_glove_table uninitialised vocab_dict glove_dict = Ok table
    ∧ (∀ i : nat, (size vocab_dict < i)%nat →
         t_data table !! i
         = t_data (torch_empty uninitialised (size vocab_dict + 2) 50) !! i)
    ∧ t_data table !! (size vocab_dict + 1)%nat
      = Some (map (uninitialised (size vocab_dict + 1)) (seq 0 50))
    ∧ ∃ weight,
        copy_ (embedding_shape (size vocab_dict) 50) table = Ok weight
        ∧ t_rows weight = (size vocab_dict + 2)%nat
        ∧ t_data weight !! (size vocab_dict + 1)%nat
          = Some (map (uninitialised (size vocab_dict + 1)) (seq 0 50)).
Proof.
  destruct get_glove_table_data as (data & Htable & Hlen & Hrows).
  eexists. split; [exact Htable|]. simpl.
  assert (∀ i : nat, (size vocab_dict < i)%nat →
            data !! i = empty_data uninitialised (size vocab_dict + 2) 50 !! i) as Hkeep.
  { intros i Hi. rewrite Hrows. by rewrite !decide_False by lia. }
  assert (data !! (size vocab_dict + 1)%nat
          = Some (map (uninitialised (size vocab_dict + 1)) (seq 0 50))) as Hlast.
  { rewrite Hkeep by lia. apply lookup_empty_data. lia. }
  split_and!; [done | done |].
  unfold copy_, embedding_shape. simpl. rewrite decide_True by done.
  eexists. split; [done|]. simpl. done.
Qed.

End EmbeddingTable.

(** *** The table of a two-word vocabulary *)

Lemma two_word_vocab_ids id :
  id ∈ dict_values {[ "good" := 1; "bad" := 2 ]}
  ↔ 1 ≤ id ≤ Z.of_nat (size ({[ "good" := 1; "bad" := 2 ]} : gmap string Z)).
Proof.
  assert (dict_values {[ "good" := 1; "bad" := 2 ]} = [1; 2]) as -> by (vm_compute; reflexivity).
  assert (size ({[ "good" := 1; "bad" := 2 ]} : gmap string Z) = 2%nat) as ->
    by (vm_compute; reflexivity).
  rewrite !elem_of_cons, elem_of_nil. lia.
Qed.

Lemma one_vector_dim id v :
  1 ≤ id ≤ Z.of_nat (size ({[ "good" := 1; "bad" := 2 ]} : gmap string Z)) →
  ({[ 1 := replicate 50 (1 # 2)%Q ]} : gmap Z (list Q)) !! id = Some v →
  length v = 50%nat.
Proof.
  intros _ Hv. destruct (decide (id = 1)) as [->|Hne].
  - rewrite lookup_singleton_eq in Hv. by injection Hv as <-.
  - by rewrite lookup_singleton_ne in Hv.
Qed.

Lemma get_glove_table_rows_witness :
  (∀ id, id ∈ dict_values {[ "good" := 1; "bad" := 2 ]}
         ↔ 1 ≤ id ≤ Z.of_nat (size ({[ "good" := 1; "bad" := 2 ]} : gmap string Z)))
  ∧ ∃ table,
      get_glove_table filler {[ "good" := 1; "bad" := 2 ]}
        {[ 1 := replicate 50 (1 # 2)%Q ]} = Ok table
      ∧ t_data table !! 0%nat = Some (replicate 50 0%Q)
      ∧ t_data table !! 1%nat = Some (replicate 50 (1 # 2)%Q)
      ∧ t_data table !! 2%nat = Some (replicate 50 1%Q).
Proof.
  split; [exact two_word_vocab_ids|].
  destruct (get_glove_table_rows filler {[ "good" := 1; "bad" := 2 ]}
              {[ 1 := replicate 50 (1 # 2)%Q ]} two_word_vocab_ids one_vector_dim)
    as (table & Htable & _ & _ & _ & Hzero & Hfound & Hunknown).
  exists table. split_and!; [done | done | |].
  - apply (Hfound 1); [vm_compute; split; discriminate | reflexivity].
  - apply (Hunknown 2); [vm_compute; split; discriminate | reflexivity].
Defined.

Lemma get_glove_table_last_row_witness :
  (∀ id, id ∈ dict_values {[ "good" := 1; "bad" := 2 ]}
         ↔ 1 ≤ id ≤ Z.of_nat (size ({[ "good" := 1; "bad" := 2 ]} : gmap string Z)))
  ∧ ∃ table,
      get_glove_table filler {[ "good" := 1; "bad" := 2 ]}
        {[ 1 := replicate 50 (1 # 2)%Q ]} = Ok table
      ∧ t_data table !! 3%nat = Some (map (filler 3) (seq 0 50)).
Proof.
  split; [exact two_word_vocab_ids|].
  destruct (get_glove_table_last_row filler {[ "good" := 1; "bad" := 2 ]}
              {[ 1 := replicate 50 (1 # 2)%Q ]} two_word_vocab_ids one_vector_dim)
    as (table & Htable & _ & Hlast & _).
  exists table. split; [done|]. exact Hlast.
Defined.

(** ** The no-information rate *)

Lemma foldl_max_list c cs : foldl Nat.max c cs = max_list (c :: cs).
Proof.
  revert c. induction cs as [|a cs IH]; intros c; simpl.
  - lia.
  - rewrite IH. simpl. lia.
Qed.

Lemma elem_of_unique_values (y : list Z) v :
  v ∈ (torch_unique y).1 ↔ v ∈ y.
Proof.
  unfold torch_unique, sorted. simpl.
  by rewrite merge_sort_Permutation, elem_of_remove_dups.
Qed.

Lemma count_label_absent (y : list Z) v : v ∉ y → count_label y v = 0%nat.
Proof.
  intros Hv. unfold count_label.
  induction y as [|l y IH]; [done|].
  apply not_elem_of_cons in Hv as [Hne Hv].
  rewrite filter_cons_False by done. by apply IH.
Qed.

Lemma count_label_le (y : list Z) v : (count_label y v ≤ length y)%nat.
Proof. unfold count_label. apply length_filter. Qed.

Lemma count_label_elem (y : list Z) v : v ∈ y → (0 < count_label y v)%nat.
Proof.
  unfold count_label. induction y as [|l y IH]; intros Hv.
  - by apply elem_of_nil in Hv.
  - destruct (decide (l = v)) as [->|Hne].
    + rewrite filter_cons_True by done. simpl. lia.
    + rewrite filter_cons_False by done. apply IH.
      apply elem_of_cons in Hv as [->|Hv]; done.
Qed.

(** The rate is the quotient, as a float, of 100 times the largest count
    of a label by the number of examples. *)
Lemma no_information_rate_max (y_dev : list Z) :
  y_dev ≠ [] →
  ∃ m, no_information_rate y_dev
       = int_truediv (100 * Z.of_nat m) (Z.of_nat (length y_dev))
       ∧ (∀ l, (count_label y_dev l ≤ m)%nat)
       ∧ ∃ label, label ∈ y_dev ∧ m = count_label y_dev label.
Proof.
  intros Hne.
  set (values := (torch_unique y_dev).1).
  set (counts := map (count_label y_dev) values).
  assert (values ≠ []) as Hvalues.
  { destruct y_dev as [|l y]; [done|].
    assert (l ∈ values) as Hl by (apply elem_of_unique_values; by left).
    intros Hnil. rewrite Hnil in Hl. by apply elem_of_nil in Hl. }
  assert (max_list counts ∈ counts) as Hmax.
  { apply max_list_elem_of. unfold counts. by destruct values. }
  apply list_elem_of_fmap in Hmax as (label & Hcount & Hlabel).
  exists (max_list counts). split_and!.
  - unfold no_information_rate. change (torch_unique y_dev).2 with counts.
    destruct counts as [|c cs] eqn:Hc.
    + unfold counts in Hc. by destruct values.
    + unfold tensor_max. cbn [mbind result_bind]. by rewrite foldl_max_list.
  - intros l. destruct (decide (l ∈ y_dev)) as [Hin|Hout].
    + apply max_list_elem_of_le, list_elem_of_fmap.
      exists l. split; [done|]. by apply elem_of_unique_values.
    + rewrite count_label_absent by done. lia.
  - exists label. split; [by apply elem_of_unique_values | done].
Qed.

Lemma int_truediv_pos (a b : Z) :
  0 < b → int_truediv a b = Ok (round_float64 (inject_Z a / inject_Z b)).
Proof. intros Hb. unfold int_truediv. rewrite decide_False by lia. done. Qed.

(** C9: on a non-empty test set the reported rate is 100 times the count
    of a most frequent label divided by the number of examples, in the
    arithmetic of the script: the product is an integer and the division
    is the true division of integers, so the rate is the float nearest to
    the exact quotient, within a relative error of [2^-53] of it. *)
Theorem no_information_rate_majority (y_dev : list Z) :
  y_dev ≠ [] →
  ∃ label rate,
    label ∈ y_dev
    ∧ (∀ l, (count_label y_dev l ≤ count_label y_dev label)%nat)
    ∧ no_information_rate y_dev = Ok rate
    ∧ int_truediv (100 * Z.of_nat (count_label y_dev label))
        (Z.of_nat (length y_dev)) = Ok rate
    ∧ rate = round_float64
               (inject_Z (100 * Z.of_nat (count_label y_dev label))
                / inject_Z (Z.of_nat (length y_dev)))
    ∧ (Qabs (rate - 100 * (inject_Z (Z.of_nat (count_label y_dev label))
                           / inject_Z (Z.of_nat (length y_dev))))
       <= 100 * (inject_Z (Z.of_nat (count_label y_dev label))
                 / inject_Z (Z.of_nat (length y_dev))) * 2 ^ (-53))%Q.
Proof.
  intros Hne.
  destruct (no_information_rate_max y_dev Hne) as (m & Hrate & Hmax & label & Hin & ->).
  assert (0 < length y_dev)%nat as Hn by (destruct y_dev; [done|simpl; lia]).
  pose proof (count_label_elem y_dev label Hin) as Hpos.
  set (c := count_label y_dev label) in *.
  rewrite int_truediv_pos in Hrate by lia.
  exists label, (round_float64 (inject_Z (100 * Z.of_nat c)
                                / inject_Z (Z.of_nat (length y_dev)))).
  split_and!; [done | done | done | by rewrite int_truediv_pos by lia | done |].
  assert (0 < inject_Z (Z.of_nat (length y_dev)))%Q as Hden.
  { change 0%Q with (inject_Z 0). rewrite <- Zlt_Qlt. lia. }
  assert (0 < inject_Z (100 * Z.of_nat c))%Q as Hnum.
  { change 0%Q with (inject_Z 0). rewrite <- Zlt_Qlt. lia. }
  assert (inject_Z (100 * Z.of_nat c) / inject_Z (Z.of_nat (length y_dev))
          == 100 * (inject_Z (Z.of_nat c) / inject_Z (Z.of_nat (length y_dev))))%Q
    as Hexact.
  { rewrite inject_Z_mult. unfold Qdiv. change (inject_Z 100) with 100%Q. ring. }
  subst c. rewrite <- Hexact. apply round_float64_error.
  apply Qlt_shift_div_l; [done|]. by rewrite Qmult_0_l.
Qed.

Lemma no_information_rate_majority_witness :
  [1; 0; 1; 1] ≠ []
  ∧ ∃ label, count_label [1; 0; 1; 1] label = 3%nat
             ∧ no_information_rate [1; 0; 1; 1] = Ok 75%Q.
Proof.
  split; [discriminate|].
  destruct (no_information_rate_majority [1; 0; 1; 1])
    as (label & rate & Hin & Hmax & Hrate & _); [discriminate|].
  exists label.
  assert (label = 1 ∨ label = 0) as [-> | ->].
  { rewrite !elem_of_cons, elem_of_nil in Hin. lia. }
  - split; reflexivity.
  - specialize (Hmax 1). vm_compute in Hmax. lia.
Defined.

Example no_information_rate_example :
  no_information_rate [1; 0; 1; 1] = Ok 75%Q.
Proof. vm_compute. reflexivity. Qed.

(** Two examples of class 0 and one of class 1: the rate is the float
    nearest to [200/3], printed as 66.66666666666667.  It is neither the
    rational [200/3] nor the float product of 100 and the float [2/3],
    which is 66.66666666666666. *)
Example no_information_rate_thirds :
  no_information_rate [0; 0; 1] = Ok (4691249611844267 # 70368744177664)%Q
  ∧ ¬ (4691249611844267 # 70368744177664 == 200 # 3)%Q
  ∧ float64_mul 100 (round_float64 (2 # 3))
    = (2345624805922133 # 35184372088832)%Q.
Proof. split_and!; [vm_compute; reflexivity | discriminate | vm_compute; reflexivity]. Qed.

Example no_information_rate_empty : no_information_rate [] = Raise RuntimeError.
Proof. reflexivity. Qed.

(** ** Sequence lengths in [forward] *)

Lemma length_filter_all {A} (P : A → Prop) `{!∀ a, Decision (P a)} (l : list A) :
  Forall P l → length (filter P l) = length l.
Proof.
  induction 1 as [|a l Ha _ IH]; [done|].
  rewrite filter_cons_True by done. simpl. by rewrite IH.
Qed.

Lemma length_filter_none {A} (P : A → Prop) `{!∀ a, Decision (P a)} (l : list A) :
  Forall (λ a, ¬ P a) l → length (filter P l) = 0%nat.
Proof.
  induction 1 as [|a l Ha _ IH]; [done|].
  by rewrite filter_cons_False.
Qed.



(** C1 at a batch whose only real token has an embedding row with one
    zero component: the length handed to the packing routine is 49/50,
    while the sequence has one non-padding timestep and one zero row. *)
Theorem forward_lengths_zero_component :
  ∃ x len,
    embedding toy_weight toy_batch = Ok x
    ∧ forward_lengths true 2 toy_weight toy_batch = Ok (Some [len])
    ∧ (len == 49 # 50)%Q
    ∧ all_zero_rows (permute_1_0_2 x) 0 = 1%nat
    ∧ true_length [1; 0] = 1%nat
    ∧ ¬ (len == inject_Z (2 - Z.of_nat (all_zero_rows (permute_1_0_2 x) 0)))%Q
    ∧ ¬ Qeq len (inject_Z (Z.of_nat (true_length [1; 0]))).
Proof.
  eexists _, _. split_and!.
  - vm_compute. reflexivity.
  - vm_compute. reflexivity.
  - reflexivity.
  - vm_compute. reflexivity.
  - vm_compute. reflexivity.
  - vm_compute. discriminate.
  - vm_compute. discriminate.
Qed.

(** ** Mini-batches *)

Section Slices.

Context {A : Type}.
Implicit Types l : list A.

Lemma consecutive_slices_prefix (batch_size : nat) l (k : nat) :
  concat (map (λ b, py_slice (b * batch_size) ((b + 1) * batch_size) l) (seq 0 k))
  = take (k * batch_size) l.
Proof.
  induction k as [|k IH]; [done|].
  rewrite seq_S, map_app, concat_app, IH. simpl. rewrite app_nil_r.
  unfold py_slice.
  replace ((k + 1) * batch_size - k * batch_size)%nat with batch_size by lia.
  rewrite take_take_drop. f_equal. lia.
Qed.

Lemma length_consecutive_slices (batch_size n : nat) l :
  length (consecutive_slices batch_size n l) = (n / batch_size + 1)%nat.
Proof. unfold consecutive_slices. by rewrite length_map, length_seq. Qed.

(** The slices, one after the other, are the list itself. *)
Lemma concat_consecutive_slices (batch_size n : nat) l :
  (0 < batch_size)%nat → (length l ≤ n)%nat →
  concat (consecutive_slices batch_size n l) = l.
Proof.
  intros Hbs Hn. unfold consecutive_slices.
  rewrite consecutive_slices_prefix. apply take_ge.
  pose proof (Nat.mul_succ_div_gt n batch_size). lia.
Qed.

Lemma lookup_consecutive_slices (batch_size n : nat) l (b : nat) :
  (b ≤ n / batch_size)%nat →
  consecutive_slices batch_size n l !! b
  = Some (py_slice (b * batch_size) ((b + 1) * batch_size) l).
Proof.
  intros Hb. unfold consecutive_slices.
  rewrite list_lookup_fmap, lookup_seq_lt by lia. done.
Qed.

(** Element [i] sits in slice [i / batch_size], at place
    [i mod batch_size]. *)
Lemma consecutive_slices_place (batch_size n : nat) l (i : nat) a :
  (0 < batch_size)%nat → (length l ≤ n)%nat → l !! i = Some a →
  ∃ batch, consecutive_slices batch_size n l !! (i / batch_size)%nat = Some batch
           ∧ batch !! (i mod batch_size)%nat = Some a.
Proof.
  intros Hbs Hn Hi. eexists. split.
  - apply lookup_consecutive_slices.
    apply lookup_lt_Some in Hi. apply Nat.Div0.div_le_mono. lia.
  - unfold py_slice.
    pose proof (Nat.mod_upper_bound i batch_size).
    rewrite lookup_take_lt by lia. rewrite lookup_drop.
    rewrite <- Hi. f_equal. pose proof (Nat.div_mod_eq i batch_size). lia.
Qed.

End Slices.

Lemma zip_map_same {A B C} (f : A → B) (g : A → C) (l : list A) :
  zip (map f l) (map g l) = map (λ a, (f a, g a)) l.
Proof. induction l as [|a l IH]; [done|]. simpl. by rewrite IH. Qed.

Lemma result_foldl_app {A B} (f : A → B → result A) (a : A) (l1 l2 : list B) :
  result_foldl f a (l1 ++ l2) = (a' ← result_foldl f a l1; result_foldl f a' l2).
Proof.
  revert a. induction l1 as [|b l1 IH]; intros a; [done|].
  simpl. destruct (f a b) as [a'|e]; simpl; [apply IH | done].
Qed.

Lemma result_mapM_fits (e : exn) (n : nat) (rows : list (list Q)) :
  Forall (λ r, length r = n) rows → result_mapM (broadcast e n) rows = Ok rows.
Proof.
  induction 1 as [|r rows Hr _ IH]; [done|].
  simpl. rewrite broadcast_fits by done. simpl. by rewrite IH.
Qed.

Section Batches.

Variable params : Type.
Variable sgd_step : params → list (list Z) → list Z → params * Q.
Variable model : params → list (list Z) → list (list Q).
Variable uninitialised : nat → nat → Q.

(** The batch loop of an epoch runs its body on the consecutive slices of
    the examples and of the labels. *)
Lemma train_pass_slices (batch_size : nat) θ x_train y_train :
  (0 < batch_size)%nat →
  train_pass params sgd_step batch_size θ x_train y_train
  = Ok (foldl (train_on params sgd_step) (θ, 0%Q, 0)
          (zip (consecutive_slices batch_size (length x_train) x_train)
               (consecutive_slices batch_size (length x_train) y_train))).
Proof.
  intros Hbs. unfold train_pass, batch_range.
  rewrite decide_False by lia. simpl. f_equal.
  unfold consecutive_slices. rewrite zip_map_same.
  change (map ?f ?l) with (f <$> l). by rewrite foldl_fmap.
Qed.

(** The scores of the first [k] batches, one after the other. *)
Lemma length_scores_prefix (batch_size : nat) θ (x : list (list Z)) (k : nat) :
  scores_shape params model θ →
  length (concat (map (λ b, model θ (py_slice (b * batch_size) ((b + 1) * batch_size) x))
                      (seq 0 k)))
  = ((k * batch_size) `min` length x)%nat.
Proof.
  intros Hshape. induction k as [|k IH]; [done|].
  rewrite seq_S, map_app, concat_app, length_app, IH.
  replace (S k * batch_size)%nat with (k * batch_size + batch_size)%nat by lia.
  simpl. rewrite app_nil_r. rewrite (proj1 (Hshape _)).
  unfold py_slice. rewrite length_take, length_drop. lia.
Qed.

(** After [k] batches the scores tensor holds the scores of these
    batches, followed by what the allocation left there. *)
Lemma acc_loop_prefix (batch_size : nat) θ (x : list (list Z)) (k : nat) :
  scores_shape params model θ →
  result_foldl (acc_batch params model batch_size θ x)
    (torch_empty uninitialised (length x) 2) (seq 0 k)
  = Ok (Tensor float32 (length x) 2
          (concat (map (λ b, model θ (py_slice (b * batch_size) ((b + 1) * batch_size) x))
                       (seq 0 k))
           ++ drop ((k * batch_size) `min` length x)
                (empty_data uninitialised (length x) 2))).
Proof.
  intros Hshape. induction k as [|k IH]; [done|].
  rewrite seq_S, result_foldl_app, IH. simpl.
  unfold acc_batch, setitem_slice, batch_inds, getitem_slice. simpl.
  set (outs := concat (map (λ b, model θ (py_slice (b * batch_size) ((b + 1) * batch_size) x))
                           (seq 0 k))).
  set (v := model θ (py_slice (k * batch_size) ((k + 1) * batch_size) x)).
  set (init := empty_data uninitialised (length x) 2).
  assert (length outs = ((k * batch_size) `min` length x)%nat) as Houts
    by by apply length_scores_prefix.
  assert (length v
          = (((k + 1) * batch_size) `min` length x - (k * batch_size) `min` length x)%nat)
    as Hv.
  { unfold v. rewrite (proj1 (Hshape _)).
    unfold py_slice. rewrite length_take, length_drop. lia. }
  rewrite broadcast_fits by done. simpl.
  rewrite result_mapM_fits by apply Hshape. simpl. do 2 f_equal.
  rewrite map_app, concat_app. simpl. rewrite app_nil_r.
  fold outs v. rewrite <- app_assoc. rewrite take_app_length' by done.
  do 2 f_equal. rewrite drop_app_ge by lia. rewrite drop_drop. f_equal. lia.
Qed.

(** The batched scores are the scores of the consecutive slices of the
    input, one after the other; nothing of the allocation is left. *)
Lemma acc_logits_slices (batch_size : nat) θ (x : list (list Z)) :
  (0 < batch_size)%nat → scores_shape params model θ →
  acc_logits params model uninitialised batch_size θ x
  = Ok (Tensor float32 (length x) 2
          (concat (map (model θ) (consecutive_slices batch_size (length x) x)))).
Proof.
  intros Hbs Hshape. unfold acc_logits, batch_range.
  rewrite decide_False by lia. simpl. rewrite acc_loop_prefix by done.
  do 2 f_equal. unfold consecutive_slices. rewrite map_map.
  rewrite drop_ge, app_nil_r; [done|].
  rewrite length_empty_data.
  pose proof (Nat.mul_succ_div_gt (length x) batch_size). lia.
Qed.

(** C8: for a positive batch size, one epoch runs the body of its batch
    loop on the slices [b*batch_size, (b+1)*batch_size) of the training
    set for b = 0 .. N/batch_size, in this order; the slices put one
    after the other are the training set, so that example i is met once,
    in batch i/batch_size at place i mod batch_size; the batched accuracy
    computation runs the model on the same slices of its input. *)
Theorem batches_partition (batch_size : nat) θ (x_train : list (list Z))
    (y_train : list Z) :
  (0 < batch_size)%nat →
  let batches := consecutive_slices batch_size (length x_train) x_train in
  train_pass params sgd_step batch_size θ x_train y_train
  = Ok (foldl (train_on params sgd_step) (θ, 0%Q, 0)
          (zip batches (consecutive_slices batch_size (length x_train) y_train)))
  ∧ length batches = (length x_train / batch_size + 1)%nat
  ∧ (∀ b, (b ≤ length x_train / batch_size)%nat →
          batches !! b
          = Some (take batch_size (drop (b * batch_size) x_train)))
  ∧ concat batches = x_train
  ∧ (length y_train = length x_train →
     concat (consecutive_slices batch_size (length x_train) y_train) = y_train)
  ∧ (∀ i example, x_train !! i = Some example →
       ∃ batch, batches !! (i / batch_size)%nat = Some batch
                ∧ batch !! (i mod batch_size)%nat = Some example)
  ∧ (∀ x, scores_shape params model θ →
       acc_logits params model uninitialised batch_size θ x
       = Ok (Tensor float32 (length x) 2
               (concat (map (model θ) (consecutive_slices batch_size (length x) x))))).
Proof.
  intros Hbs batches. unfold batches. split_and!.
  - by apply train_pass_slices.
  - apply length_consecutive_slices.
  - intros b Hb. rewrite lookup_consecutive_slices by done.
    unfold py_slice. do 2 f_equal. lia.
  - by apply concat_consecutive_slices.
  - intros Hlen. apply concat_consecutive_slices; [done | lia].
  - intros i example Hi. by apply consecutive_slices_place.
  - intros x Hshape. by apply acc_logits_slices.
Qed.

End Batches.

(** ** The epoch loop and its checkpoint *)

Section Checkpoints.

Variable params : Type.
Variable sgd_step : params → list (list Z) → list Z → params * Q.
Variable model : params → list (list Z) → list (list Q).
Variable accuracy_score : list Z → list Z → result Q.
Variable uninitialised : nat → nat → Q.

Variable batch_size : nat.
Variables x_train x_val : list (list Z).
Variables y_train y_val : list Z.
Variable θ0 : params.

Local Abbreviation step SAVE_MODEL :=
  (epoch_step params sgd_step model accuracy_score uninitialised SAVE_MODEL
     batch_size x_train y_train x_val y_val).
Local Abbreviation loop SAVE_MODEL n :=
  (training_loop params sgd_step model accuracy_score uninitialised SAVE_MODEL
     n batch_size θ0 x_train y_train x_val y_val).

Lemma training_loop_S SAVE_MODEL n :
  loop SAVE_MODEL (S n) = (st ← loop SAVE_MODEL n; step SAVE_MODEL st n).
Proof.
  unfold training_loop. rewrite seq_S, result_foldl_app. simpl.
  destruct (result_foldl _ _ (seq 0 n)) as [st|e]; simpl; [|done].
  by destruct (step SAVE_MODEL st n).
Qed.

(** One epoch trains on the training set, predicts the labels of the
    validation set with the trained model and reports 100 times their
    accuracy; it saves the trained model exactly when this accuracy
    exceeds the best one so far and saving is on. *)
Lemma epoch_step_run SAVE_MODEL st epoch st' :
  step SAVE_MODEL st epoch = Ok st' →
  ∃ θ loss_train train_steps y_val_pred a,
    train_pass params sgd_step batch_size (cur_params st) x_train y_train
    = Ok (θ, loss_train, train_steps)
    ∧ acc_labels params model uninitialised batch_size θ x_val = Ok y_val_pred
    ∧ accuracy_score y_val y_val_pred = Ok a
    ∧ cur_params st' = θ
    ∧ val_log st' = val_log st ++ [float64_mul 100 a]
    ∧ ((acc_dev_best st < float64_mul 100 a)%Q ∧ SAVE_MODEL = true
       ∧ acc_dev_best st' = float64_mul 100 a
       ∧ checkpoint st' = Some θ
       ∧ save_log st' = save_log st ++ [epoch]
       ∨ ((float64_mul 100 a <= acc_dev_best st)%Q ∨ SAVE_MODEL = false)
         ∧ acc_dev_best st' = acc_dev_best st
         ∧ checkpoint st' = checkpoint st
         ∧ save_log st' = save_log st).
Proof.
  unfold epoch_step.
  destruct (train_pass _ _ _ _ _ _) as [[[θ loss_train] train_steps]|] eqn:Htrain;
    simpl; [|done].
  destruct (acc _ _ _ _ _ _ _ _) as [acc_train|]; simpl; [|done].
  destruct (acc_labels _ _ _ _ _ _) as [y_val_pred|] eqn:Hpred; simpl; [|done].
  destruct (accuracy_score _ _) as [a|] eqn:Hacc; simpl; [|done].
  intros Hstep. exists θ, loss_train, train_steps, y_val_pred, a.
  split_and!; [done..| | |].
  - by destruct (negb _ && _); injection Hstep as <-.
  - by destruct (negb _ && _); injection Hstep as <-.
  - destruct (Qle_bool (float64_mul 100 a) (acc_dev_best st)) eqn:Hle; simpl in Hstep.
    + injection Hstep as <-. simpl. right.
      split_and!; [|done..]. left. by apply Qle_bool_iff.
    + destruct SAVE_MODEL; injection Hstep as <-; simpl.
      * left. split_and!; [|done..]. apply Qnot_le_lt. intros Hc.
        apply Qle_bool_iff in Hc. congruence.
      * right. split_and!; [|done..]. by right.
Qed.

Lemma epoch_step_cases SAVE_MODEL st epoch st' :
  step SAVE_MODEL st epoch = Ok st' →
  ∃ acc_val,
    val_log st' = val_log st ++ [acc_val]
    ∧ ((acc_dev_best st < acc_val)%Q ∧ SAVE_MODEL = true
       ∧ acc_dev_best st' = acc_val
       ∧ checkpoint st' = Some (cur_params st')
       ∧ save_log st' = save_log st ++ [epoch]
       ∨ ((acc_val <= acc_dev_best st)%Q ∨ SAVE_MODEL = false)
         ∧ acc_dev_best st' = acc_dev_best st
         ∧ checkpoint st' = checkpoint st
         ∧ save_log st' = save_log st).
Proof.
  intros (θ & _ & _ & _ & a & _ & _ & _ & Hθ & Hlog & Hcases)%epoch_step_run.
  exists (float64_mul 100 a). rewrite Hθ. by split.
Qed.

(** The runs of fewer epochs are the prefixes of a run: they report the
    same accuracies, and their best accuracy is not larger. *)
Lemma training_loop_prefix SAVE_MODEL n st :
  loop SAVE_MODEL n = Ok st →
  length (val_log st) = n
  ∧ ∀ m, (m ≤ n)%nat →
      ∃ st_m, loop SAVE_MODEL m = Ok st_m
              ∧ val_log st_m = take m (val_log st)
              ∧ (acc_dev_best st_m <= acc_dev_best st)%Q.
Proof.
  revert st. induction n as [|n IH]; intros st Hrun.
  - injection Hrun as <-. simpl. split; [done|]. intros m Hm.
    assert (m = 0%nat) as -> by lia. eexists. split; [done|]. simpl.
    split; [done|]. apply Qle_refl.
  - rewrite training_loop_S in Hrun.
    destruct (loop SAVE_MODEL n) as [st_n|] eqn:Hn; simpl in Hrun; [|done].
    destruct (IH st_n eq_refl) as [Hlen Hprefix].
    destruct (epoch_step_cases _ _ _ _ Hrun) as (acc_val & Hlog & Hcases).
    assert (acc_dev_best st_n <= acc_dev_best st)%Q as Hbest.
    { destruct Hcases as [(Hlt & _ & -> & _)|(_ & -> & _)].
      - by apply Qlt_le_weak.
      - apply Qle_refl. }
    assert (length (val_log st) = S n) as Hlen'.
    { rewrite Hlog, length_app, Hlen. simpl. lia. }
    split; [done|]. intros m Hm.
    destruct (decide (m = S n)) as [->|Hne].
    + exists st. rewrite training_loop_S, Hn. simpl.
      split_and!; [done | | apply Qle_refl]. by rewrite take_ge by lia.
    + destruct (Hprefix m) as (st_m & Hrun_m & Hlog_m & Hbest_m); [lia|].
      exists st_m. split_and!; [done | |].
      * rewrite Hlog_m, Hlog. by rewrite take_app_le by lia.
      * by eapply Qle_trans.
Qed.

(** With saving on: the best accuracy bounds every reported accuracy; it
    is 0 with no checkpoint, or the accuracy of the epoch saved last; and
    an epoch saved exactly when its accuracy is positive and larger than
    every earlier one. *)
Lemma training_loop_invariant n st :
  loop true n = Ok st →
  (0 <= acc_dev_best st)%Q
  ∧ (∀ a, a ∈ val_log st → (a <= acc_dev_best st)%Q)
  ∧ (acc_dev_best st = 0%Q ∧ checkpoint st = None ∧ save_log st = []
     ∨ ∃ e st_e, last (save_log st) = Some e
         ∧ val_log st !! e = Some (acc_dev_best st)
         ∧ loop true (S e) = Ok st_e
         ∧ checkpoint st = Some (cur_params st_e)
         ∧ (0 < acc_dev_best st)%Q)
  ∧ (∀ e, e ∈ save_log st
          ↔ ∃ a, val_log st !! e = Some a ∧ (0 < a)%Q
                 ∧ ∀ j a', (j < e)%nat → val_log st !! j = Some a' → (a' < a)%Q).
Proof.
  revert st. induction n as [|n IH]; intros st Hrun.
  - injection Hrun as <-. simpl. split_and!.
    + apply Qle_refl.
    + intros a Ha. by apply elem_of_nil in Ha.
    + by left.
    + intros e. split; [intros He; by apply elem_of_nil in He|].
      by intros (a & Ha & _).
  - pose proof Hrun as Hrun'. rewrite training_loop_S in Hrun.
    destruct (loop true n) as [st_n|] eqn:Hn; simpl in Hrun; [|done].
    destruct (training_loop_prefix _ _ _ Hn) as [Hlen _].
    destruct (IH st_n eq_refl) as (Hpos & Hbound & Hfile & Hsaved).
    destruct (epoch_step_cases _ _ _ _ Hrun) as (acc_val & Hlog & Hcases).
    assert (∀ j a', (j < n)%nat → val_log st !! j = Some a' →
                    (a' <= acc_dev_best st_n)%Q) as Hearlier.
    { intros j a' Hj Ha'. rewrite Hlog, lookup_app_l in Ha' by lia.
      eapply Hbound, list_elem_of_lookup_2, Ha'. }
    assert (val_log st !! n = Some acc_val) as Hnow.
    { rewrite Hlog, lookup_app_r by lia. by rewrite Hlen, Nat.sub_diag. }
    assert (∀ e, e ∈ save_log st_n
                 ↔ (e < n)%nat
                   ∧ ∃ a, val_log st !! e = Some a ∧ (0 < a)%Q
                          ∧ ∀ j a', (j < e)%nat → val_log st !! j = Some a' →
                                    (a' < a)%Q) as Hold.
    { intros e. rewrite Hsaved. split.
      - intros (a & Ha & Hapos & Hlt).
        assert (e < n)%nat as He by (apply lookup_lt_Some in Ha; lia).
        split; [done|]. exists a. split_and!; [|done|].
        + rewrite Hlog. by apply lookup_app_l_Some.
        + intros j a' Hj Ha'. apply (Hlt j); [done|].
          by rewrite Hlog, lookup_app_l in Ha' by lia.
      - intros (He & a & Ha & Hapos & Hlt). exists a.
        rewrite Hlog in Ha, Hlt. rewrite lookup_app_l in Ha by lia.
        split_and!; [done..|]. intros j a' Hj Ha'. apply (Hlt j); [done|].
        by apply lookup_app_l_Some. }
    destruct Hcases as [(Hlt & _ & Hbest & Hcp & Hsl)|([Hle|?] & Hbest & Hcp & Hsl)];
      [| |done].
    + rewrite Hbest. split_and!.
      * apply Qlt_le_weak. by eapply Qle_lt_trans.
      * intros a. rewrite Hlog, elem_of_app, list_elem_of_singleton.
        intros [Ha| ->]; [|apply Qle_refl].
        apply Qlt_le_weak. eapply Qle_lt_trans; [by apply Hbound|done].
      * right. exists n, st. rewrite Hsl, last_snoc.
        split_and!; [done..|]. by eapply Qle_lt_trans.
      * intros e. rewrite Hsl, elem_of_app, list_elem_of_singleton, Hold. split.
        -- intros [[_ He]| ->]; [done|]. exists acc_val. split_and!; [done | |].
           ++ by eapply Qle_lt_trans.
           ++ intros j a' Hj Ha'. eapply Qle_lt_trans; [by eapply Hearlier|done].
        -- intros (a & Ha & Hrest).
           assert (e < S n)%nat as He.
           { apply lookup_lt_Some in Ha. rewrite Hlog, length_app in Ha. simpl in Ha. lia. }
           destruct (decide (e = n)) as [->|Hne]; [by right|].
           left. split; [lia|]. by exists a.
    + rewrite Hbest. split_and!.
      * done.
      * intros a. rewrite Hlog, elem_of_app, list_elem_of_singleton.
        intros [Ha| ->]; [by apply Hbound | done].
      * rewrite Hcp, Hsl. destruct Hfile as [?|(e & st_e & Hlast & He & Hrest)]; [by left|].
        right. exists e, st_e. split_and!; [done | | apply Hrest..].
        rewrite Hlog. by apply lookup_app_l_Some.
      * intros e. rewrite Hsl, Hold. split; [by intros [_ He]|].
        intros (a & Ha & Hapos & Hall).
        assert (e < S n)%nat as He.
        { apply lookup_lt_Some in Ha. rewrite Hlog, length_app in Ha. simpl in Ha. lia. }
        destruct (decide (e = n)) as [->|Hne]; [|split; [lia|by exists a]].
        exfalso. rewrite Hnow in Ha. injection Ha as <-.
        destruct Hfile as [(Hzero & _)|(e0 & st_e0 & _ & He0 & _)].
        -- rewrite Hzero in Hle. by apply Qle_not_lt in Hle.
        -- assert (e0 < n)%nat as Hlt0 by (apply lookup_lt_Some in He0; lia).
           apply Qle_not_lt in Hle. apply Hle, (Hall e0); [done|].
           rewrite Hlog. by apply lookup_app_l_Some.
Qed.

(** With saving off nothing is written and the best accuracy stays 0. *)
Lemma training_loop_no_save n st :
  loop false n = Ok st →
  checkpoint st = None ∧ save_log st = [] ∧ acc_dev_best st = 0%Q.
Proof.
  revert st. induction n as [|n IH]; intros st Hrun.
  - by injection Hrun as <-.
  - rewrite training_loop_S in Hrun.
    destruct (loop false n) as [st_n|] eqn:Hn; simpl in Hrun; [|done].
    destruct (IH st_n eq_refl) as (Hcp & Hsl & Hbest).
    destruct (epoch_step_cases _ _ _ _ Hrun)
      as (acc_val & _ & [(_ & ? & _)|(_ & -> & -> & ->)]); done.
Qed.

(** The epochs a shorter run has saved are those the run has saved among
    its first epochs. *)
Lemma save_log_prefix n m st st_m :
  loop true n = Ok st → loop true m = Ok st_m → (m ≤ n)%nat →
  ∀ e, e ∈ save_log st_m ↔ e ∈ save_log st ∧ (e < m)%nat.
Proof.
  intros Hrun Hrun_m Hm e.
  destruct (training_loop_prefix _ _ _ Hrun) as [Hlen Hprefix].
  destruct (Hprefix m Hm) as (st_m' & Hrun_m' & Hlog & _).
  assert (st_m' = st_m) as -> by congruence.
  destruct (training_loop_invariant _ _ Hrun) as (_ & _ & _ & Hsaved).
  destruct (training_loop_invariant _ _ Hrun_m) as (_ & _ & _ & Hsaved_m).
  rewrite Hsaved, Hsaved_m, Hlog. split.
  - intros (a & Ha & Hpos & Hlt).
    apply lookup_take_Some in Ha as [Ha He].
    split; [|done]. exists a. split_and!; [done..|].
    intros j a' Hj Ha'. apply (Hlt j); [done|].
    apply lookup_take_Some. split; [done|lia].
  - intros [(a & Ha & Hpos & Hlt) He]. exists a. split_and!; [|done|].
    + apply lookup_take_Some. by split.
    + intros j a' Hj Ha'. apply (Hlt j); [done|].
      by apply lookup_take_Some in Ha' as [Ha' _].
Qed.

(** C5: in a run of the epoch loop with saving on, every epoch trains
    the model, predicts the labels of the validation set and reports 100
    times their accuracy; it writes the checkpoint exactly when this
    accuracy is larger than the best value so far, and the best value is
    then this accuracy.  The best value is 0 at the start, so an epoch
    saves exactly when its accuracy is positive and larger than every
    earlier one.  Hence a checkpoint, once there is one, holds the model
    of the epoch saved last, whose accuracy is the largest reported so
    far, and the best value never decreases along the run; as long as
    every accuracy is 0 there is no checkpoint. *)
Theorem checkpoint_is_best n st :
  training_loop params sgd_step model accuracy_score uninitialised true n
    batch_size θ0 x_train y_train x_val y_val = Ok st →
  length (val_log st) = n
  ∧ (∀ e, (e < n)%nat →
       ∃ st_e st_e' θ loss_train train_steps y_val_pred a,
         training_loop params sgd_step model accuracy_score uninitialised true e
           batch_size θ0 x_train y_train x_val y_val = Ok st_e
         ∧ training_loop params sgd_step model accuracy_score uninitialised true (S e)
             batch_size θ0 x_train y_train x_val y_val = Ok st_e'
         ∧ train_pass params sgd_step batch_size (cur_params st_e) x_train y_train
           = Ok (θ, loss_train, train_steps)
         ∧ acc_labels params model uninitialised batch_size θ x_val = Ok y_val_pred
         ∧ accuracy_score y_val y_val_pred = Ok a
         ∧ cur_params st_e' = θ
         ∧ val_log st !! e = Some (float64_mul 100 a)
         ∧ (e ∈ save_log st ↔ (acc_dev_best st_e < float64_mul 100 a)%Q)
         ∧ (e ∈ save_log st →
            acc_dev_best st_e' = float64_mul 100 a ∧ checkpoint st_e' = Some θ)
         ∧ (e ∉ save_log st →
            acc_dev_best st_e' = acc_dev_best st_e
            ∧ checkpoint st_e' = checkpoint st_e))
  ∧ (∀ e, e ∈ save_log st
          ↔ ∃ a, val_log st !! e = Some a ∧ (0 < a)%Q
                 ∧ ∀ j a', (j < e)%nat → val_log st !! j = Some a' → (a' < a)%Q)
  ∧ (∀ a, a ∈ val_log st → (a <= acc_dev_best st)%Q)
  ∧ (checkpoint st = None →
     acc_dev_best st = 0%Q ∧ save_log st = []
     ∧ ∀ a, a ∈ val_log st → (a <= 0)%Q)
  ∧ (∀ θ, checkpoint st = Some θ →
       ∃ e st_e,
         last (save_log st) = Some e
         ∧ training_loop params sgd_step model accuracy_score uninitialised true (S e)
             batch_size θ0 x_train y_train x_val y_val = Ok st_e
         ∧ cur_params st_e = θ
         ∧ val_log st !! e = Some (acc_dev_best st)
         ∧ (0 < acc_dev_best st)%Q
         ∧ ∀ a, a ∈ val_log st → (a <= acc_dev_best st)%Q)
  ∧ (∀ m, (m ≤ n)%nat →
       ∃ st_m,
         training_loop params sgd_step model accuracy_score uninitialised true m
           batch_size θ0 x_train y_train x_val y_val = Ok st_m
         ∧ val_log st_m = take m (val_log st)
         ∧ (acc_dev_best st_m <= acc_dev_best st)%Q).
Proof.
  intros Hrun.
  destruct (training_loop_prefix _ _ _ Hrun) as [Hlen Hprefix].
  destruct (training_loop_invariant _ _ Hrun) as (Hpos & Hbound & Hfile & Hsaved).
  split_and!; [done | | done | done | | | done].
  - intros e He.
    destruct (Hprefix e) as (st_e & Hrun_e & Hlog_e & _); [lia|].
    destruct (Hprefix (S e)) as (st_e' & Hrun_e' & Hlog_e' & _); [lia|].
    pose proof Hrun_e' as Hstep. rewrite training_loop_S, Hrun_e in Hstep.
    simpl in Hstep.
    destruct (epoch_step_run _ _ _ _ Hstep)
      as (θ & loss_train & train_steps & y_val_pred & a
          & Htrain & Hpred & Hacc & Hθ & Hlog & Hcases).
    destruct (training_loop_prefix _ _ _ Hrun_e) as [Hlen_e _].
    assert (val_log st !! e = Some (float64_mul 100 a)) as Hnow.
    { rewrite <- (lookup_take_lt (val_log st) (S e)) by lia.
      rewrite <- Hlog_e', Hlog, lookup_app_r by lia.
      by rewrite Hlen_e, Nat.sub_diag. }
    assert (e ∉ save_log st_e) as Hfresh.
    { rewrite (save_log_prefix n e st st_e) by (done || lia). lia. }
    assert (e ∈ save_log st ↔ e ∈ save_log st_e') as Hsame.
    { rewrite (save_log_prefix n (S e) st st_e') by (done || lia).
      split; [intros; split; [done|lia] | by intros [? _]]. }
    exists st_e, st_e', θ, loss_train, train_steps, y_val_pred, a.
    split_and!; [done..| | |]; rewrite Hsame.
    + destruct Hcases as [(Hlt & _ & _ & _ & Hsl)|([Hle|?] & _ & _ & Hsl)];
        [| |done]; rewrite Hsl.
      * split; [done|]. intros _. rewrite elem_of_app. right. by left.
      * split; [done|]. intros Hlt. by apply Qle_not_lt in Hle.
    + destruct Hcases as [(_ & _ & Hbest & Hcp & _)|([Hle|?] & _ & _ & Hsl)];
        [done| |done].
      rewrite Hsl. done.
    + destruct Hcases as [(_ & _ & _ & _ & Hsl)|(_ & Hbest & Hcp & _)];
        [|done].
      rewrite Hsl, elem_of_app. intros Hout. exfalso. apply Hout. right. by left.
  - intros Hnone. destruct Hfile as [(Hzero & _ & Hsl)|(e & st_e & _ & _ & _ & Hcp & _)];
      [|congruence].
    split_and!; [done..|]. intros a Ha. rewrite <- Hzero. by apply Hbound.
  - intros θ Hθ.
    destruct Hfile as [(_ & Hcp & _)|(e & st_e & Hlast & He & Hrun_e & Hcp & Hbest)];
      [congruence|].
    exists e, st_e. split_and!; [done | done | congruence | done | done | done].
Qed.

End Checkpoints.

(** *** Runs of a small model *)

Example training_loop_example :
  ∃ st, training_loop nat toy_sgd_step toy_model toy_accuracy_score filler
          true 5 2 0%nat [[1; 0]] [1] [[1; 0]; [2; 0]] [1; 1] = Ok st
        ∧ cur_params st = 5%nat
        ∧ checkpoint st = Some 3%nat
        ∧ save_log st = [2%nat]
        ∧ Forall2 Qeq (val_log st) [0; 0; 100; 100; 100]%Q.
Proof.
  eexists. split; [vm_compute; reflexivity|]. simpl.
  split_and!; [done..|]. repeat constructor.
Qed.

(** A run of one epoch whose validation accuracy is 0: no earlier
    accuracy is as large and it is the largest accuracy reported, and yet
    the epoch is not saved and there is no checkpoint. *)
Lemma checkpoint_skips_accuracy_zero :
  ∃ st, training_loop nat toy_sgd_step toy_model toy_accuracy_score filler
          true 1 2 0%nat [[1; 0]] [1] [[1; 0]; [2; 0]] [1; 1] = Ok st
        ∧ val_log st = [0%Q] ∧ save_log st = [] ∧ checkpoint st = None
        ∧ ¬ (0%nat ∈ save_log st
             ↔ ∀ j a', (j < 0)%nat → val_log st !! j = Some a' → (a' < 0)%Q)
        ∧ ¬ (∃ θ e a, checkpoint st = Some θ ∧ val_log st !! e = Some a
                      ∧ ∀ a', a' ∈ val_log st → (a' <= a)%Q).
Proof.
  eexists. split; [vm_compute; reflexivity|]. simpl.
  split_and!; [done..| |].
  - intros [_ Hsave]. eapply elem_of_nil, Hsave. intros j a' Hj. lia.
  - by intros (θ & e & a & Hcp & _).
Qed.

Lemma checkpoint_is_best_witness :
  ∃ st, training_loop nat toy_sgd_step toy_model toy_accuracy_score filler
          true 5 2 0%nat [[1; 0]] [1] [[1; 0]; [2; 0]] [1; 1] = Ok st
        ∧ ∀ a, a ∈ val_log st → (a <= acc_dev_best st)%Q.
Proof.
  eexists. split; [vm_compute; reflexivity|].
  refine (proj1 (proj2 (proj2 (proj2 (checkpoint_is_best nat toy_sgd_step toy_model
    toy_accuracy_score filler 2 [[1; 0]] [[1; 0]; [2; 0]] [1] [1; 1] 0%nat 5 _ _))))).
  vm_compute. reflexivity.
Defined.

Lemma batches_partition_witness :
  (0 < 2)%nat
  ∧ concat (consecutive_slices 2 3 [[1; 0]; [2; 0]; [3; 4]]) = [[1; 0]; [2; 0]; [3; 4]]
  ∧ consecutive_slices 2 3 [[1; 0]; [2; 0]; [3; 4]] = [[[1; 0]; [2; 0]]; [[3; 4]]].
Proof.
  split; [lia|]. split; [|reflexivity].
  exact (proj1 (proj2 (proj2 (proj2 (batches_partition nat toy_sgd_step toy_model filler
    2 0%nat [[1; 0]; [2; 0]; [3; 4]] [1; 0; 1] ltac:(lia)))))).
Defined.

Example acc_labels_example :
  acc_labels nat toy_model filler 2 5%nat [[1; 0]; [2; 0]; [3; 4]] = Ok [1; 1; 1].
Proof. vm_compute. reflexivity. Qed.

Example forward_lengths_example :
  forward_lengths true 2 (Tensor float32 2 50 [zeros 50; ones 50]) toy_batch
  = Ok (Some [(50 # 50)%Q]).
Proof. vm_compute. reflexivity. Qed.

(** * Further properties *)

(** ** The pretrained vectors *)

Lemma split_newline_nonempty s : split_newline s ≠ [].
Proof.
  destruct s as [|c s]; simpl; [done|].
  destruct (Ascii.eqb c newline); [done|]. by destruct (split_newline s).
Qed.

Lemma split_newline_app a b :
  split_newline (a +:+ String newline b) = split_newline a ++ split_newline b.
Proof.
  induction a as [|c a IH]; simpl.
  - done.
  - destruct (Ascii.eqb c newline); rewrite IH; [done|].
    pose proof (split_newline_nonempty a). by destruct (split_newline a).
Qed.

Lemma split_newline_no_newline s : no_newline s = true → split_newline s = [s].
Proof.
  induction s as [|c s IH]; simpl; [done|].
  destruct (Ascii.eqb c newline); simpl; [done|]. intros Hs. by rewrite IH.
Qed.

Lemma drop_last_snoc {A} (l : list A) x : drop_last (l ++ [x]) = l.
Proof.
  unfold drop_last. rewrite length_app. simpl.
  replace (length l + 1 - 1)%nat with (length l) by lia. apply take_app_length.
Qed.

Section GloveFileProps.

Variable str_split : string → list string.
Variable float32_of : string → option Q.
Variable vocab_dict : gmap string Z.

Local Abbreviation line_step := (glove_line str_split float32_of vocab_dict).

(** The lines the loop reads are those that end in a newline. *)
Lemma glove_lines_read a tail :
  no_newline tail = true →
  drop_last (split_newline (a +:+ String newline tail)) = split_newline a.
Proof.
  intros Htail. rewrite split_newline_app.
  rewrite (split_newline_no_newline tail) by done. apply drop_last_snoc.
Qed.

(** X1: the text after the last newline of the file is never read: a last
    line that lacks its newline is dropped, and a text without newline
    gives the empty dictionary. *)
Theorem get_glove_embeddings_unterminated a tail :
  no_newline tail = true →
  get_glove_embeddings str_split float32_of vocab_dict (a +:+ String newline tail)
  = get_glove_embeddings str_split float32_of vocab_dict (a +:+ String newline "")
  ∧ get_glove_embeddings str_split float32_of vocab_dict tail = Ok ∅.
Proof.
  intros Htail. unfold get_glove_embeddings. split.
  - by rewrite !glove_lines_read.
  - by rewrite split_newline_no_newline.
Qed.

(** One line either fails, or leaves the dictionary as it is, or stores
    the vector of its fields at the id of its first field. *)
Lemma glove_line_cases d line d' :
  line_step d line = Ok d' →
  ∃ word fields,
    str_split line = word :: fields
    ∧ (vocab_dict !! word = None ∧ d' = d
       ∨ ∃ id v, vocab_dict !! word = Some id
                 ∧ np_array_float32 float32_of fields = Ok v
                 ∧ d' = <[id := v]> d).
Proof.
  unfold glove_line. destruct (str_split line) as [|word fields]; [done|].
  intros Hstep. exists word, fields. split; [done|].
  case_bool_decide as Hin.
  - destruct Hin as [id Hid]. right.
    destruct (np_array_float32 float32_of fields) as [v|] eqn:Hv; simpl in Hstep; [|done].
    unfold dict_getitem in Hstep. rewrite Hid in Hstep. simpl in Hstep.
    injection Hstep as <-. by exists id, v.
  - left. injection Hstep as <-. split; [|done].
    by apply eq_None_not_Some.
Qed.

(** Lines whose first field does not map to [id] leave the entry of [id]
    as it is. *)
Lemma glove_lines_untouched lines : ∀ d d' id,
  result_foldl line_step d lines = Ok d' →
  (∀ line word fields, line ∈ lines → str_split line = word :: fields →
                       vocab_dict !! word ≠ Some id) →
  d' !! id = d !! id.
Proof.
  induction lines as [|line lines IH]; intros d d' id Hrun Hother.
  - by injection Hrun as <-.
  - simpl in Hrun. destruct (line_step d line) as [d1|] eqn:Hstep; simpl in Hrun; [|done].
    rewrite (IH d1 d' id Hrun) by (intros ????; apply Hother; by right).
    destruct (glove_line_cases _ _ _ Hstep)
      as (word & fields & Hsplit & [[_ ->]|(id' & v & Hid & _ & ->)]); [done|].
    apply lookup_insert_ne. intros ->. eapply Hother; [by left|done..].
Qed.

(** Every entry of the result comes from the start dictionary or from a
    line of the file. *)
Lemma glove_lines_provenance lines : ∀ d d' id v,
  result_foldl line_step d lines = Ok d' →
  d' !! id = Some v →
  d !! id = Some v
  ∨ ∃ line word fields,
      line ∈ lines ∧ str_split line = word :: fields
      ∧ vocab_dict !! word = Some id
      ∧ np_array_float32 float32_of fields = Ok v.
Proof.
  induction lines as [|line lines IH]; intros d d' id v Hrun Hv.
  - injection Hrun as <-. by left.
  - simpl in Hrun. destruct (line_step d line) as [d1|] eqn:Hstep; simpl in Hrun; [|done].
    destruct (IH d1 d' id v Hrun Hv) as [Hd1|(l & word & fields & Hl & Hrest)].
    + destruct (glove_line_cases _ _ _ Hstep)
        as (word & fields & Hsplit & [[_ ->]|(id' & v' & Hid & Hparse & ->)]);
        [by left|].
      destruct (decide (id' = id)) as [->|Hne].
      * rewrite lookup_insert_eq in Hd1. injection Hd1 as ->.
        right. exists line, word, fields. split_and!; [by left|done..].
      * rewrite lookup_insert_ne in Hd1 by done. by left.
    + right. exists l, word, fields. split; [by right|done].
Qed.

(** A successful run has read lines with at least one field each. *)
Lemma glove_lines_fields lines : ∀ d d',
  result_foldl line_step d lines = Ok d' →
  Forall (λ line, str_split line ≠ []) lines.
Proof.
  induction lines as [|line lines IH]; intros d d' Hrun; [done|].
  simpl in Hrun. destruct (line_step d line) as [d1|] eqn:Hstep; simpl in Hrun; [|done].
  constructor; [|by eapply IH].
  destruct (glove_line_cases _ _ _ Hstep) as (word & fields & -> & _). done.
Qed.

Lemma glove_lines_kept lines : ∀ d d' id,
  result_foldl line_step d lines = Ok d' → is_Some (d !! id) → is_Some (d' !! id).
Proof.
  induction lines as [|line lines IH]; intros d d' id Hrun Hid.
  - by injection Hrun as <-.
  - simpl in Hrun. destruct (line_step d line) as [d1|] eqn:Hstep; simpl in Hrun; [|done].
    apply (IH d1 d' id Hrun).
    destruct (glove_line_cases _ _ _ Hstep)
      as (word & fields & _ & [[_ ->]|(id' & v & _ & _ & ->)]); [done|].
    rewrite lookup_insert_is_Some. destruct (decide (id' = id)); auto.
Qed.

Lemma glove_lines_covered lines : ∀ d d' line word fields id,
  result_foldl line_step d lines = Ok d' →
  line ∈ lines → str_split line = word :: fields → vocab_dict !! word = Some id →
  is_Some (d' !! id).
Proof.
  induction lines as [|l lines IH]; intros d d' line word fields id Hrun Hin Hsplit Hid.
  - by apply elem_of_nil in Hin.
  - simpl in Hrun. destruct (line_step d l) as [d1|] eqn:Hstep; simpl in Hrun; [|done].
    apply elem_of_cons in Hin as [->|Hin]; [|by eapply IH].
    apply (glove_lines_kept _ _ _ _ Hrun).
    destruct (glove_line_cases _ _ _ Hstep)
      as (word' & fields' & Hsplit' & [[Hnone _]|(id' & v & Hid' & _ & ->)]).
    + congruence.
    + assert (id' = id) as -> by congruence. by rewrite lookup_insert_eq.
Qed.

(** The loop stops only on a line without fields or on a field that is
    no number. *)
Lemma glove_lines_errors lines : ∀ d e,
  result_foldl line_step d lines = Raise e → e = IndexError ∨ e = ValueError.
Proof.
  assert (∀ fields e, np_array_float32 float32_of fields = Raise e → e = ValueError)
    as Hparse.
  { unfold np_array_float32. induction fields as [|field fields IH]; intros e; [done|].
    simpl. destruct (float32_of field); simpl; [|by intros [= <-]].
    destruct (result_mapM _ fields); simpl; [done|]. intros [= <-]. by apply IH. }
  induction lines as [|line lines IH]; intros d e Hrun; [done|].
  simpl in Hrun. destruct (line_step d line) as [d1|e1] eqn:Hstep; simpl in Hrun.
  - by eapply IH.
  - injection Hrun as <-. unfold glove_line in Hstep.
    destruct (str_split line) as [|word fields]; [left; congruence|].
    case_bool_decide as Hin; [|done]. destruct Hin as [id Hid].
    destruct (np_array_float32 float32_of fields) as [v|e2] eqn:Hv; simpl in Hstep.
    + unfold dict_getitem in Hstep. by rewrite Hid in Hstep.
    + injection Hstep as <-. right. by eapply Hparse.
Qed.

(** X2: the keys of the returned dictionary are ids of the vocabulary:
    every entry is the vector of the fields of a read line whose first
    field has this id, and every read line whose first field is in the
    vocabulary has an entry. *)
Theorem get_glove_embeddings_entries glove d :
  get_glove_embeddings str_split float32_of vocab_dict glove = Ok d →
  (∀ id v, d !! id = Some v →
     ∃ line word fields,
       line ∈ drop_last (split_newline glove)
       ∧ str_split line = word :: fields
       ∧ vocab_dict !! word = Some id
       ∧ np_array_float32 float32_of fields = Ok v)
  ∧ (∀ line word fields id,
       line ∈ drop_last (split_newline glove) →
       str_split line = word :: fields → vocab_dict !! word = Some id →
       is_Some (d !! id)).
Proof.
  unfold get_glove_embeddings. intros Hrun. split.
  - intros id v Hv.
    destruct (glove_lines_provenance _ _ _ _ _ Hrun Hv) as [Hempty|?]; [|done].
    by rewrite lookup_empty in Hempty.
  - intros line word fields id Hin Hsplit Hid.
    exact (glove_lines_covered _ _ _ _ _ _ _ Hrun Hin Hsplit Hid).
Qed.

(** X3: when several read lines give a vector for the same id, the last
    one is kept. *)
Theorem get_glove_embeddings_last_line glove d before line after word fields id :
  get_glove_embeddings str_split float32_of vocab_dict glove = Ok d →
  drop_last (split_newline glove) = before ++ line :: after →
  str_split line = word :: fields → vocab_dict !! word = Some id →
  (∀ l w fs, l ∈ after → str_split l = w :: fs → vocab_dict !! w ≠ Some id) →
  ∃ v, np_array_float32 float32_of fields = Ok v ∧ d !! id = Some v.
Proof.
  unfold get_glove_embeddings. intros Hrun Hlines Hsplit Hid Hafter.
  rewrite Hlines, result_foldl_app in Hrun. simpl in Hrun.
  destruct (result_foldl line_step ∅ before) as [d1|]; simpl in Hrun; [|done].
  destruct (line_step d1 line) as [d2|] eqn:Hstep; simpl in Hrun; [|done].
  rewrite (glove_lines_untouched _ _ _ _ Hrun Hafter).
  destruct (glove_line_cases _ _ _ Hstep)
    as (word' & fields' & Hsplit' & [[Hnone _]|(id' & v & Hid' & Hv & ->)]).
  - congruence.
  - assert (word' = word ∧ fields' = fields) as [-> ->] by (split; congruence).
    assert (id' = id) as -> by congruence.
    exists v. by rewrite lookup_insert_eq.
Qed.

(** X4: a read line without fields, such as an empty line before the
    last newline, makes the call fail with an index or a value error. *)
Theorem get_glove_embeddings_blank_line glove line :
  line ∈ drop_last (split_newline glove) → str_split line = [] →
  ∃ e, get_glove_embeddings str_split float32_of vocab_dict glove = Raise e
       ∧ (e = IndexError ∨ e = ValueError).
Proof.
  intros Hin Hblank. unfold get_glove_embeddings.
  destruct (result_foldl line_step ∅ (drop_last (split_newline glove)))
    as [d|e] eqn:Hrun.
  - apply glove_lines_fields in Hrun. rewrite Forall_forall in Hrun.
    by destruct (Hrun line Hin).
  - exists e. split; [done|]. by eapply glove_lines_errors.
Qed.

End GloveFileProps.

(** *** A small file of pretrained vectors *)

Lemma get_glove_embeddings_unterminated_witness :
  no_newline "bad 3 4" = true
  ∧ get_glove_embeddings ws_tokenize digit_of {[ "good" := 1; "bad" := 2 ]}
      ("good 1 2" +:+ String newline "bad 3 4")
    = get_glove_embeddings ws_tokenize digit_of {[ "good" := 1; "bad" := 2 ]}
        ("good 1 2" +:+ String newline "").
Proof.
  split; [reflexivity|].
  exact (proj1 (get_glove_embeddings_unterminated ws_tokenize digit_of
                  {[ "good" := 1; "bad" := 2 ]} "good 1 2" "bad 3 4" eq_refl)).
Defined.

Example get_glove_embeddings_example :
  get_glove_embeddings ws_tokenize digit_of {[ "good" := 1; "bad" := 2 ]}
    ("good 1 2" +:+ String newline ("ugly 9" +:+ String newline "bad 3 4"))
  = Ok {[ 1 := [1%Q; 2%Q] ]}.
Proof. vm_compute. reflexivity. Qed.

Lemma get_glove_embeddings_entries_witness :
  ∃ d, get_glove_embeddings ws_tokenize digit_of {[ "good" := 1; "bad" := 2 ]}
         ("good 1 2" +:+ String newline ("ugly 9" +:+ String newline "")) = Ok d
       ∧ is_Some (d !! 1).
Proof.
  eexists. split; [vm_compute; reflexivity|].
  refine (proj2 (get_glove_embeddings_entries ws_tokenize digit_of
                   {[ "good" := 1; "bad" := 2 ]}
                   ("good 1 2" +:+ String newline ("ugly 9" +:+ String newline ""))
                   _ _) "good 1 2" "good" ["1"; "2"] 1 _ _ _).
  - vm_compute. reflexivity.
  - vm_compute. repeat constructor.
  - vm_compute. reflexivity.
  - reflexivity.
Defined.

Lemma get_glove_embeddings_last_line_witness :
  ∃ d, get_glove_embeddings ws_tokenize digit_of {[ "good" := 1; "bad" := 2 ]}
         ("good 1 2" +:+ String newline ("good 3 4" +:+ String newline "")) = Ok d
       ∧ ∃ v, np_array_float32 digit_of ["3"; "4"] = Ok v ∧ d !! 1 = Some v.
Proof.
  eexists. split; [vm_compute; reflexivity|].
  refine (get_glove_embeddings_last_line ws_tokenize digit_of
            {[ "good" := 1; "bad" := 2 ]}
            ("good 1 2" +:+ String newline ("good 3 4" +:+ String newline ""))
            _ ["good 1 2"] "good 3 4" [] "good" ["3"; "4"] 1 _ _ _ _ _).
  - vm_compute. reflexivity.
  - vm_compute. reflexivity.
  - vm_compute. reflexivity.
  - reflexivity.
  - intros l w fs Hl. by apply elem_of_nil in Hl.
Defined.

Lemma get_glove_embeddings_blank_line_witness :
  ∃ e, get_glove_embeddings ws_tokenize digit_of {[ "good" := 1; "bad" := 2 ]}
         ("good 1 2" +:+ String newline (String newline "bad 3 4")) = Raise e
       ∧ (e = IndexError ∨ e = ValueError).
Proof.
  refine (get_glove_embeddings_blank_line ws_tokenize digit_of
            {[ "good" := 1; "bad" := 2 ]}
            ("good 1 2" +:+ String newline (String newline "bad 3 4")) "" _ _).
  - vm_compute. repeat constructor.
  - reflexivity.
Defined.

(** ** Batch sizes, batched scores and optimisation steps *)

(** X5: every batch but the last has [batch_size] examples and the last
    has [N mod batch_size]; so when the batch size divides the number of
    examples the loops run once more, on an empty batch. *)
Theorem batch_lengths {A} (batch_size : nat) (x : list A) batches :
  batch_range (length x) batch_size = Ok batches →
  batches = seq 0 (length x / batch_size + 1)
  ∧ (∀ batch, (batch < length x / batch_size)%nat →
       length (getitem_slice (batch_inds batch_size batch) x) = batch_size)
  ∧ length (getitem_slice (batch_inds batch_size (length x / batch_size)) x)
    = (length x mod batch_size)%nat
  ∧ ((length x mod batch_size)%nat = 0%nat →
     getitem_slice (batch_inds batch_size (length x / batch_size)) x = []).
Proof.
  unfold batch_range. destruct (decide (batch_size = 0%nat)) as [|Hbs]; [done|].
  intros [= <-].
  assert (length (getitem_slice (batch_inds batch_size (length x / batch_size)) x)
          = (length x mod batch_size)%nat) as Hlast.
  { unfold getitem_slice, batch_inds, py_slice. simpl.
    rewrite length_take, length_drop.
    pose proof (Nat.div_mod_eq (length x) batch_size).
    pose proof (Nat.mod_upper_bound (length x) batch_size Hbs). nia. }
  split_and!; [done | | done |].
  - intros batch Hb. unfold getitem_slice, batch_inds, py_slice. simpl.
    rewrite length_take, length_drop.
    pose proof (Nat.div_mod_eq (length x) batch_size). nia.
  - intros Hmod. rewrite Hmod in Hlast. by apply nil_length_inv.
Qed.

Lemma batch_lengths_witness :
  batch_range (length [10; 11; 12; 13]) 2 = Ok [0; 1; 2]%nat
  ∧ getitem_slice (batch_inds 2 (length [10; 11; 12; 13] / 2)) [10; 11; 12; 13] = [].
Proof.
  split; [reflexivity|].
  apply (batch_lengths 2 [10; 11; 12; 13] [0; 1; 2]%nat eq_refl). reflexivity.
Defined.

Lemma argmax_two (a b : Q) : argmax [a; b] = if Qle_bool b a then 0 else 1.
Proof. unfold argmax. simpl. by destruct (Qle_bool b a). Qed.

Section BatchProps.

Variable params : Type.
Variable sgd_step : params → list (list Z) → list Z → params * Q.
Variable model : params → list (list Z) → list (list Q).
Variable uninitialised : nat → nat → Q.

(** X6: for a model that scores each example on its own, the batched
    prediction is the prediction example by example, whatever the batch
    size: one label per example, each 0 or 1, class 0 on a tie; nothing of
    the uninitialised scores tensor is read. *)
Theorem acc_labels_rowwise (batch_size : nat) θ (x : list (list Z))
    (score : list Z → Q * Q) :
  (0 < batch_size)%nat →
  (∀ batch, model θ batch = map (λ ids, [(score ids).1; (score ids).2]) batch) →
  acc_labels params model uninitialised batch_size θ x
  = Ok (map (λ ids, if Qle_bool (score ids).2 (score ids).1 then 0 else 1) x).
Proof.
  intros Hbs Hmodel.
  assert (scores_shape params model θ) as Hshape.
  { intros batch. rewrite Hmodel, length_map. split; [done|].
    apply Forall_forall. intros r (ids & -> & _)%list_elem_of_fmap. done. }
  unfold acc_labels. rewrite acc_logits_slices by done. simpl. f_equal.
  assert (concat (map (model θ) (consecutive_slices batch_size (length x) x))
          = map (λ ids, [(score ids).1; (score ids).2]) x) as ->.
  { rewrite (map_ext _ _ Hmodel), <- concat_map.
    by rewrite concat_consecutive_slices. }
  rewrite map_map. apply map_ext. intros ids. apply argmax_two.
Qed.

Lemma train_batches_steps (batch_size : nat) (x_train : list (list Z))
    (y_train : list Z) batches : ∀ θ loss_train train_steps,
  (foldl (train_batch params sgd_step batch_size x_train y_train)
     (θ, loss_train, train_steps) batches).2
  = train_steps + Z.of_nat (length batches).
Proof.
  induction batches as [|batch batches IH]; intros θ loss_train train_steps.
  - simpl. lia.
  - cbn [foldl length].
    destruct (train_batch params sgd_step batch_size x_train y_train
                (θ, loss_train, train_steps) batch) as [[θ' loss'] steps'] eqn:Hstep.
    rewrite IH. unfold train_batch, train_on in Hstep.
    destruct (sgd_step θ _ _) as [θ1 loss]. injection Hstep as _ _ <-. lia.
Qed.

(** X7: one epoch takes [N / batch_size + 1] optimisation steps, so the
    mean training loss it reports divides by a positive number; with a
    batch size of 0 the epoch and the batched accuracy raise
    [ZeroDivisionError] before any step. *)
Theorem train_pass_steps (batch_size : nat) θ (x_train : list (list Z))
    (y_train : list Z) :
  (batch_size = 0%nat →
   train_pass params sgd_step batch_size θ x_train y_train = Raise ZeroDivisionError
   ∧ acc_logits params model uninitialised batch_size θ x_train
     = Raise ZeroDivisionError)
  ∧ ((0 < batch_size)%nat →
     ∃ θ' loss_train train_steps,
       train_pass params sgd_step batch_size θ x_train y_train
       = Ok (θ', loss_train, train_steps)
       ∧ train_steps = Z.of_nat (length x_train / batch_size + 1)
       ∧ 0 < train_steps).
Proof.
  split.
  - intros ->. done.
  - intros Hbs. unfold train_pass, batch_range.
    rewrite decide_False by lia. simpl.
    pose proof (train_batches_steps batch_size x_train y_train
                  (seq 0 (length x_train / batch_size + 1)) θ 0%Q 0) as Hsteps.
    destruct (foldl _ _ _) as [[θ' loss_train] train_steps]. simpl in Hsteps.
    exists θ', loss_train, train_steps. rewrite length_seq in Hsteps.
    split_and!; [done | lia | lia].
Qed.

End BatchProps.

Lemma acc_labels_rowwise_witness :
  (0 < 2)%nat
  ∧ acc_labels nat toy_model filler 2 5%nat [[1; 0]; [2; 0]; [3; 4]] = Ok [1; 1; 1].
Proof.
  split; [lia|].
  exact (acc_labels_rowwise nat toy_model filler 2 5%nat [[1; 0]; [2; 0]; [3; 4]]
           (λ _, (0%Q, 1%Q)) ltac:(lia) (λ batch, eq_refl)).
Defined.

Lemma train_pass_steps_witness :
  (0 < 2)%nat
  ∧ ∃ θ' loss_train train_steps,
      train_pass nat toy_sgd_step 2 0%nat [[1; 0]; [2; 0]; [3; 4]] [1; 0; 1]
      = Ok (θ', loss_train, train_steps)
      ∧ train_steps = Z.of_nat (length [[1; 0]; [2; 0]; [3; 4]] / 2 + 1)
      ∧ 0 < train_steps.
Proof.
  split; [lia|].
  exact (proj2 (train_pass_steps nat toy_sgd_step toy_model filler 2 0%nat
                  [[1; 0]; [2; 0]; [3; 4]] [1; 0; 1]) ltac:(lia)).
Defined.

(** ** The encoder and its buffer *)

Lemma convert_loop_buffer (word_tokenize : string → list string)
    (vocab_dict : gmap string Z) pad_to sentences :
  ∀ idx x1 x2,
    t_dtype x1 = t_dtype x2 → t_rows x1 = t_rows x2 → t_cols x1 = t_cols x2 →
    length (t_data x1) = t_rows x1 → length (t_data x2) = t_rows x2 →
    t_rows x1 = (idx + length sentences)%nat →
    take idx (t_data x1) = take idx (t_data x2) →
    convert_loop word_tokenize vocab_dict pad_to idx sentences x1
    = convert_loop word_tokenize vocab_dict pad_to idx sentences x2.
Proof.
  induction sentences as [|s sentences IH];
    intros idx x1 x2 Hd Hr Hc Hl1 Hl2 Hrows Htake.
  - simpl in *. rewrite !take_ge in Htake by lia.
    destruct x1, x2; simpl in *; by subst.
  - simpl in *.
    destruct (word_ids_loop vocab_dict (word_tokenize s) []) as [word_ids|]; simpl; [|done].
    unfold setitem_row. rewrite <- Hr, <- Hc, <- Hd.
    rewrite py_index_nat by lia. simpl.
    destruct (broadcast ValueError (t_cols x1) _) as [row|]; simpl; [|done].
    apply IH; simpl;
      [done.. | rewrite length_insert; lia | rewrite length_insert; lia | lia |].
    rewrite (take_S_r _ _ row) by (apply list_lookup_insert_eq; lia).
    rewrite (take_S_r (<[idx:=row]> (t_data x2)) _ row)
      by (apply list_lookup_insert_eq; lia).
    rewrite !take_insert_ge by lia. by rewrite Htake.
Qed.

(** X8: the encoder overwrites every row of the array it allocates: its
    result, array or exception, does not depend on what the allocation
    contained. *)
Theorem convert_to_ids_overwrites_buffer (word_tokenize : string → list string)
    (uninitialised1 uninitialised2 : nat → nat → Q) raw_sentences
    (vocab_dict : gmap string Z) pad_to :
  convert_to_ids word_tokenize uninitialised1 raw_sentences vocab_dict pad_to
  = convert_to_ids word_tokenize uninitialised2 raw_sentences vocab_dict pad_to.
Proof.
  unfold convert_to_ids, np_empty.
  destruct (decide (pad_to < 0)); [done|]. simpl.
  apply convert_loop_buffer; simpl; [done.. | | | done | done];
    apply length_empty_data.
Qed.

(** ** From the raw splits to the encoded arrays and the table *)

Lemma padded_ids_inj (ids1 ids2 : list Z) (n1 n2 : nat) :
  Forall (λ id, id ≠ 0) ids1 → Forall (λ id, id ≠ 0) ids2 →
  ids1 ++ replicate n1 0 = ids2 ++ replicate n2 0 → ids1 = ids2.
Proof.
  intros H1. revert ids2. induction H1 as [|id1 ids1 Hid1 _ IH]; intros ids2 H2 Heq.
  - destruct H2 as [|id2 ids2 Hid2 _]; [done|].
    simpl in Heq. destruct n1; simpl in Heq; [done|]. injection Heq as Heq _.
    by destruct Hid2.
  - destruct H2 as [|id2 ids2 Hid2 H2].
    + simpl in Heq. destruct n2; simpl in Heq; [done|]. injection Heq as Heq _.
      by destruct Hid1.
    + simpl in Heq. injection Heq as -> Heq. f_equal. by apply IH.
Qed.

Lemma map_inject_Z_inj (l1 l2 : list Z) :
  map inject_Z l1 = map inject_Z l2 → l1 = l2.
Proof.
  revert l2. induction l1 as [|a l1 IH]; intros [|b l2] Heq; try done.
  simpl in Heq. injection Heq as Hab Heq. f_equal; [done|]. by apply IH.
Qed.

Lemma elem_of_dict_values (d : gmap string Z) id :
  id ∈ dict_values d ↔ ∃ token, d !! token = Some id.
Proof.
  unfold dict_values. rewrite list_elem_of_fmap. split.
  - intros ([token id'] & -> & Hin). exists token. by apply elem_of_map_to_list.
  - intros (token & Hid). exists (token, id). split; [done|].
    by apply elem_of_map_to_list.
Qed.

Section Pipeline.

Variable word_tokenize : string → list string.
Variable uninitialised : nat → nat → Q.
Variable set_iter : list string → list string.

Hypothesis set_iter_NoDup : ∀ l, NoDup (set_iter l).
Hypothesis set_iter_elem : ∀ l x, x ∈ set_iter l ↔ x ∈ l.

Variables train dev val : list string.

Local Abbreviation token_ids :=
  (extract_vocab_dict_and_msl word_tokenize set_iter train dev val).1.
Local Abbreviation msl :=
  (extract_vocab_dict_and_msl word_tokenize set_iter train dev val).2.
Local Abbreviation keys :=
  (set_iter (corpus_tokens word_tokenize (train ++ dev ++ val))).

Lemma token_ids_lookup token id :
  token_ids !! token = Some id
  ↔ ∃ i : nat, keys !! i = Some token ∧ id = 1 + Z.of_nat i.
Proof.
  rewrite extract_vocab_dict_and_msl_unfold. simpl.
  by apply token_vocab_lookup.
Qed.

Lemma token_ids_size : size token_ids = length keys.
Proof.
  rewrite extract_vocab_dict_and_msl_unfold. simpl.
  rewrite dict_of_pairs_list_to_map by (rewrite fst_zip_ids; apply set_iter_NoDup).
  rewrite map_size_list_to_map by (rewrite fst_zip_ids; apply set_iter_NoDup).
  rewrite length_zip_with, length_seqZ. lia.
Qed.

Lemma token_ids_range token id :
  token_ids !! token = Some id → 1 ≤ id ≤ Z.of_nat (size token_ids).
Proof.
  intros (i & Hi & ->)%token_ids_lookup. rewrite token_ids_size.
  apply lookup_lt_Some in Hi. lia.
Qed.

Lemma token_ids_inj token1 token2 id :
  token_ids !! token1 = Some id → token_ids !! token2 = Some id → token1 = token2.
Proof.
  intros (i & Hi & ->)%token_ids_lookup (j & Hj & Heq)%token_ids_lookup.
  assert (i = j) as -> by lia. congruence.
Qed.

(** The ids of the vocabulary are exactly 1..V. *)
Lemma token_ids_values id :
  id ∈ dict_values token_ids ↔ 1 ≤ id ≤ Z.of_nat (size token_ids).
Proof.
  rewrite elem_of_dict_values. split.
  - intros [token Hid]. by eapply token_ids_range.
  - intros Hid. rewrite token_ids_size in Hid.
    destruct (lookup_lt_is_Some_2 keys (Z.to_nat (id - 1))) as [token Htok]; [lia|].
    exists token. apply token_ids_lookup. exists (Z.to_nat (id - 1)). split; [done|lia].
Qed.

Lemma tokens_same_ids (tokens1 tokens2 : list string) (ids : list Z) :
  Forall2 (λ token id, token_ids !! token = Some id) tokens1 ids →
  Forall2 (λ token id, token_ids !! token = Some id) tokens2 ids →
  tokens1 = tokens2.
Proof.
  intros H1. revert tokens2. induction H1 as [|t1 id tokens1 ids Ht1 _ IH];
    intros tokens2 H2.
  - by apply Forall2_nil_inv_r in H2.
  - apply Forall2_cons_inv_r in H2 as (t2 & tokens2' & Ht2 & H2 & ->).
    f_equal; [by eapply token_ids_inj | by apply IH].
Qed.

Lemma msl_longest : msl = Z.of_nat (longest word_tokenize (train ++ dev ++ val)).
Proof. by rewrite extract_vocab_dict_and_msl_unfold. Qed.

Lemma split_in_corpus split s :
  split ∈ [train; dev; val] → s ∈ split → s ∈ train ++ dev ++ val.
Proof.
  intros Hsplit Hs. rewrite !elem_of_app. rewrite !elem_of_cons in Hsplit.
  destruct Hsplit as [->|[->|[->|Hnil]]]; auto. by apply elem_of_nil in Hnil.
Qed.

(** The rows the encoder builds for a split: the ids of the tokens, which
    are ids of the vocabulary, followed by zeros up to the common length. *)
Lemma split_rows split :
  split ∈ [train; dev; val] →
  ∃ rows,
    convert_to_ids word_tokenize uninitialised split token_ids msl
    = Ok (Tensor float64 (length split) (Z.to_nat msl) rows)
    ∧ Forall2 (λ s row,
         ∃ ids, Forall2 (λ token id, token_ids !! token = Some id) (word_tokenize s) ids
                ∧ row = map inject_Z (ids ++ replicate (Z.to_nat msl - length ids) 0))
        split rows.
Proof.
  intros Hsplit. unfold convert_to_ids, np_empty.
  rewrite decide_False by (rewrite msl_longest; lia).
  cbn [mbind result_bind].
  set (x0 := Tensor float64 (length split) (Z.to_nat msl)
               (empty_data uninitialised (length split) (Z.to_nat msl))).
  destruct (convert_loop_covered word_tokenize token_ids msl split) with (idx := 0%nat) (x := x0)
    as (rows & Hloop & Hrows).
  - rewrite msl_longest. lia.
  - apply Forall_forall. intros s Hs. apply Forall_forall. intros token Htok.
    apply token_vocab_covers; [done..|].
    unfold corpus_tokens. apply list_elem_of_bind. exists s. split; [done|].
    by eapply split_in_corpus.
  - reflexivity.
  - reflexivity.
  - apply length_empty_data.
  - exists rows. split; [exact Hloop|].
    apply Forall2_same_length_lookup. split; [by eapply Forall2_length|].
    intros i s row Hi Hrow.
    pose proof (list_elem_of_lookup_2 _ _ _ Hi) as Hs.
    destruct (Forall2_lookup_lr _ _ _ _ _ _ Hrows Hi Hrow) as (ids & Hids & ->).
    exists ids. split; [done|].
    f_equal. unfold fit_row, truncates.
    pose proof (Forall2_length _ _ _ Hids) as Hlen.
    pose proof (ms_len_bounds word_tokenize set_iter train dev val s
                  (split_in_corpus _ _ Hsplit Hs)) as Hbound.
    rewrite bool_decide_eq_false_2 by lia. do 2 f_equal. lia.
Qed.

(** X9: each split is encoded with the vocabulary and the length of the
    vocabulary builder into an array of shape (sentences, msl) whose row
    for a sentence holds one id in 1..V per token, followed only by
    zeros: every entry is a row number of the embedding table, and the
    entries that are not zero are as many as the tokens. *)
Theorem convert_to_ids_on_split split :
  split ∈ [train; dev; val] →
  ∃ x,
    convert_to_ids word_tokenize uninitialised split
      (extract_vocab_dict_and_msl word_tokenize set_iter train dev val).1
      (extract_vocab_dict_and_msl word_tokenize set_iter train dev val).2 = Ok x
    ∧ t_rows x = length split ∧ Z.of_nat (t_cols x) = msl
    ∧ ∀ i s, split !! i = Some s →
        ∃ ids,
          t_data x !! i
          = Some (map inject_Z (ids ++ replicate (Z.to_nat msl - length ids) 0))
          ∧ length ids = length (word_tokenize s)
          ∧ (length ids ≤ Z.to_nat msl)%nat
          ∧ Forall (λ id, 1 ≤ id ≤ Z.of_nat (size token_ids)) ids
          ∧ true_length (ids ++ replicate (Z.to_nat msl - length ids) 0)
            = length (word_tokenize s).
Proof.
  intros Hsplit. destruct (split_rows split Hsplit) as (rows & Hx & Hrows).
  eexists. split; [exact Hx|]. cbn [t_rows t_cols t_data].
  split_and!; [done | rewrite msl_longest; lia |].
  intros i s Hs.
  destruct (Forall2_lookup_l _ _ _ _ _ Hrows Hs) as (row & Hrow & ids & Hids & ->).
  assert (Forall (λ id, 1 ≤ id ≤ Z.of_nat (size token_ids)) ids) as Hrange.
  { apply Forall_forall. intros id Hid.
    apply list_elem_of_lookup in Hid as [k Hk].
    destruct (Forall2_lookup_r _ _ _ _ _ Hids Hk) as (token & _ & Htok).
    by eapply token_ids_range. }
  pose proof (Forall2_length _ _ _ Hids) as Hlen.
  exists ids. split_and!; [done | done | | done |].
  - pose proof (ms_len_bounds word_tokenize set_iter train dev val s
                  (split_in_corpus _ _ Hsplit (list_elem_of_lookup_2 _ _ _ Hs))). lia.
  - unfold true_length. rewrite filter_app, length_app.
    rewrite length_filter_all by (eapply Forall_impl; [exact Hrange|]; simpl; lia).
    rewrite length_filter_none; [lia|].
    apply Forall_forall. intros id Hid%elem_of_replicate. tauto.
Qed.

(** X10: the encoding of a split can be decoded: two sentences of a split
    with the same row have the same tokens. *)
Theorem convert_to_ids_rows_decode split x i j s1 s2 row :
  split ∈ [train; dev; val] →
  convert_to_ids word_tokenize uninitialised split
    (extract_vocab_dict_and_msl word_tokenize set_iter train dev val).1
    (extract_vocab_dict_and_msl word_tokenize set_iter train dev val).2 = Ok x →
  split !! i = Some s1 → split !! j = Some s2 →
  t_data x !! i = Some row → t_data x !! j = Some row →
  word_tokenize s1 = word_tokenize s2.
Proof.
  intros Hsplit Hx Hs1 Hs2 Hrow1 Hrow2.
  destruct (split_rows split Hsplit) as (rows & Hx' & Hrows).
  rewrite Hx' in Hx. injection Hx as <-. cbn [t_data] in *.
  destruct (Forall2_lookup_l _ _ _ _ _ Hrows Hs1) as (row1 & Hr1 & ids1 & Hids1 & ->).
  destruct (Forall2_lookup_l _ _ _ _ _ Hrows Hs2) as (row2 & Hr2 & ids2 & Hids2 & ->).
  rewrite Hr1 in Hrow1. rewrite Hr2 in Hrow2.
  assert (ids1 = ids2) as ->.
  { apply (padded_ids_inj ids1 ids2 (Z.to_nat msl - length ids1)
             (Z.to_nat msl - length ids2));
      [| |apply map_inject_Z_inj; congruence].
    - apply Forall_forall. intros id [k Hk]%list_elem_of_lookup.
      destruct (Forall2_lookup_r _ _ _ _ _ Hids1 Hk) as (token & _ & Htok).
      apply token_ids_range in Htok. lia.
    - apply Forall_forall. intros id [k Hk]%list_elem_of_lookup.
      destruct (Forall2_lookup_r _ _ _ _ _ Hids2 Hk) as (token & _ & Htok).
      apply token_ids_range in Htok. lia. }
  by eapply tokens_same_ids.
Qed.

(** X11: the vocabulary of the vocabulary builder has exactly the ids the
    table builder expects, so for pretrained vectors of 50 components the
    table is built: it has one row per distinct token and two more, row 0
    is zero, and the row at the id of a token is the token's pretrained
    vector, or all ones. *)
Theorem get_glove_table_of_vocabulary (glove_dict : gmap Z (list Q)) :
  (∀ id v, glove_dict !! id = Some v → length v = 50%nat) →
  ∃ table,
    get_glove_table uninitialised
      (extract_vocab_dict_and_msl word_tokenize set_iter train dev val).1 glove_dict
    = Ok table
    ∧ t_rows table
      = (length (remove_dups (corpus_tokens word_tokenize (train ++ dev ++ val))) + 2)%nat
    ∧ t_cols table = 50%nat
    ∧ t_data table !! 0%nat = Some (zeros 50)
    ∧ ∀ token, token ∈ corpus_tokens word_tokenize (train ++ dev ++ val) →
        ∃ id, token_ids !! token = Some id ∧ 1 ≤ id
              ∧ t_data table !! Z.to_nat id
                = Some (default (ones 50) (glove_dict !! id)).
Proof.
  intros Hdim.
  destruct (get_glove_table_data uninitialised token_ids glove_dict token_ids_values)
    as (data & Htable & Hlen & Hrows); [by eauto|].
  eexists. split; [exact Htable|]. cbn [t_rows t_cols t_data].
  split_and!.
  - rewrite token_ids_size. f_equal. by apply set_iter_length.
  - done.
  - by rewrite Hrows.
  - intros token Htok.
    destruct (token_vocab_covers word_tokenize set_iter set_iter_NoDup set_iter_elem
                train dev val token Htok) as [id Hid].
    pose proof (token_ids_range _ _ Hid) as Hrange.
    exists id. split_and!; [done | lia |].
    rewrite Hrows. rewrite decide_False, decide_True by lia.
    by rewrite Z2Nat.id by lia.
Qed.

End Pipeline.

(** *** The splits of a small corpus *)

Example convert_to_ids_on_split_example :
  convert_to_ids ws_tokenize filler ["bad"; "good movie"]
    (extract_vocab_dict_and_msl ws_tokenize dedup_order
       ["The movie"; "the good movie"] ["bad"; "good movie"] []).1
    (extract_vocab_dict_and_msl ws_tokenize dedup_order
       ["The movie"; "the good movie"] ["bad"; "good movie"] []).2
  = Ok (Tensor float64 2 3 [[3%Q; 0%Q; 0%Q]; [4%Q; 5%Q; 0%Q]]).
Proof. vm_compute. reflexivity. Qed.

Lemma convert_to_ids_on_split_witness :
  ["bad"; "good movie"] ∈ [["The movie"; "the good movie"]; ["bad"; "good movie"]; []]
  ∧ ∃ x, convert_to_ids ws_tokenize filler ["bad"; "good movie"]
           (extract_vocab_dict_and_msl ws_tokenize dedup_order
              ["The movie"; "the good movie"] ["bad"; "good movie"] []).1
           (extract_vocab_dict_and_msl ws_tokenize dedup_order
              ["The movie"; "the good movie"] ["bad"; "good movie"] []).2 = Ok x
         ∧ t_rows x = 2%nat.
Proof.
  assert (["bad"; "good movie"]
          ∈ [["The movie"; "the good movie"]; ["bad"; "good movie"]; []]) as Hsplit
    by repeat constructor.
  split; [exact Hsplit|].
  destruct (convert_to_ids_on_split ws_tokenize filler dedup_order
              dedup_order_NoDup dedup_order_elem
              ["The movie"; "the good movie"] ["bad"; "good movie"] [] _ Hsplit)
    as (x & Hx & Hrows & _).
  by exists x.
Defined.

Lemma convert_to_ids_rows_decode_witness :
  ws_tokenize "good movie" = ws_tokenize "good  movie".
Proof.
  refine (convert_to_ids_rows_decode ws_tokenize filler dedup_order
            dedup_order_NoDup dedup_order_elem
            ["good movie"; "bad"; "good  movie"] [] []
            ["good movie"; "bad"; "good  movie"]
            (Tensor float64 3 2 [[2%Q; 3%Q]; [1%Q; 0%Q]; [2%Q; 3%Q]])
            0%nat 2%nat "good movie" "good  movie" [2%Q; 3%Q] _ _ _ _ _ _).
  - repeat constructor.
  - vm_compute. reflexivity.
  - reflexivity.
  - reflexivity.
  - reflexivity.
  - reflexivity.
Defined.

Lemma half_vector_dim id v :
  ({[ 1 := replicate 50 (1 # 2)%Q ]} : gmap Z (list Q)) !! id = Some v →
  length v = 50%nat.
Proof.
  intros Hv. destruct (decide (id = 1)) as [->|Hne].
  - rewrite lookup_singleton_eq in Hv. by injection Hv as <-.
  - by rewrite lookup_singleton_ne in Hv.
Qed.

Lemma get_glove_table_of_vocabulary_witness :
  ∃ table,
    get_glove_table filler
      (extract_vocab_dict_and_msl ws_tokenize dedup_order
         ["The movie"; "the good movie"] ["bad"] []).1
      {[ 1 := replicate 50 (1 # 2)%Q ]} = Ok table
    ∧ t_rows table = 7%nat.
Proof.
  destruct (get_glove_table_of_vocabulary ws_tokenize filler dedup_order
              dedup_order_NoDup dedup_order_elem
              ["The movie"; "the good movie"] ["bad"] []
              {[ 1 := replicate 50 (1 # 2)%Q ]} half_vector_dim)
    as (table & Htable & Hrows & _).
  exists table. split; [done|]. rewrite Hrows. vm_compute. reflexivity.
Defined.

(** ** Sequence lengths on batches with rows free of zeros *)







(** ** From the raw splits to the lengths of [forward] *)



Section EndToEnd.

Variable word_tokenize : string → list string.
Variable uninitialised : nat → nat → Q.
Variable set_iter : list string → list string.

Hypothesis set_iter_NoDup : ∀ l, NoDup (set_iter l).
Hypothesis set_iter_elem : ∀ l x, x ∈ set_iter l ↔ x ∈ l.

Variables train dev val : list string.
Variable glove_dict : gmap Z (list Q).

(** The pretrained vectors have 50 components, none of them zero. *)
Hypothesis glove_zero_free :
  ∀ id v, glove_dict !! id = Some v →
          length v = 50%nat ∧ Forall (λ q, Qeq_bool q 0 = false) v.

Local Abbreviation token_ids :=
  (extract_vocab_dict_and_msl word_tokenize set_iter train dev val).1.
Local Abbreviation msl :=
  (extract_vocab_dict_and_msl word_tokenize set_iter train dev val).2.


End EndToEnd.



Example forward_lengths_of_split_example :
  ∃ x table weight,
    convert_to_ids ws_tokenize filler ["bad"; "good movie"]
      {[ "The" := 1; "the" := 2; "bad" := 3; "good" := 4; "movie" := 5 ]} 3 = Ok x
    ∧ get_glove_table filler
        {[ "The" := 1; "the" := 2; "bad" := 3; "good" := 4; "movie" := 5 ]}
        {[ 1 := replicate 50 (1 # 2)%Q ]} = Ok table
    ∧ copy_ (embedding_shape 5 50) table = Ok weight
    ∧ forward_lengths true 3 weight (batch_getitem (0, 2)%nat (LongTensor x))
      = Ok (Some [(50 # 50)%Q; (100 # 50)%Q]).
Proof.
  eexists _, _, _. split_and!; vm_compute; reflexivity.
Qed.

(** ** Bounds of the no-information rate *)

Lemma count_label_binary (y : list Z) :
  Forall (λ l, l = 0 ∨ l = 1) y →
  (count_label y 0 + count_label y 1)%nat = length y.
Proof.
  unfold count_label. induction 1 as [|l y [-> | ->] _ IH]; [done|..].
  - rewrite filter_cons_True, (filter_cons_False (λ l, l = 1)) by done. simpl. lia.
  - rewrite filter_cons_False, (filter_cons_True (λ l, l = 1)) by done. simpl. lia.
Qed.

(** X14: on a non-empty test set the rate lies in (0, 100], and it is at
    least 50 when the labels are 0 and 1. *)
Theorem no_information_rate_bounds (y_dev : list Z) :
  y_dev ≠ [] →
  ∃ rate, no_information_rate y_dev = Ok rate
          ∧ (0 < rate)%Q ∧ (rate <= 100)%Q
          ∧ (Forall (λ l, l = 0 ∨ l = 1) y_dev → (50 <= rate)%Q).
Proof.
  intros Hne.
  destruct (no_information_rate_max y_dev Hne) as (m & Hrate & Hmax & label & Hin & Hm).
  assert (0 < length y_dev)%nat as Hn by (destruct y_dev; [done|simpl; lia]).
  assert (0 < m)%nat as Hpos by (rewrite Hm; by apply count_label_elem).
  assert (m ≤ length y_dev)%nat as Hle by (rewrite Hm; apply count_label_le).
  rewrite int_truediv_pos in Hrate by lia.
  eexists. split; [exact Hrate|].
  assert (0 < inject_Z (Z.of_nat (length y_dev)))%Q as Hden.
  { change 0%Q with (inject_Z 0). rewrite <- Zlt_Qlt. lia. }
  set (q := (inject_Z (100 * Z.of_nat m) / inject_Z (Z.of_nat (length y_dev)))%Q).
  assert (0 < q)%Q as Hq.
  { apply Qlt_shift_div_l; [done|]. rewrite Qmult_0_l.
    change 0%Q with (inject_Z 0). rewrite <- Zlt_Qlt. lia. }
  assert (q <= 100)%Q as Hq100.
  { apply Qle_shift_div_r; [done|].
    change 100%Q with (inject_Z 100). rewrite <- inject_Z_mult, <- Zle_Qle. lia. }
  assert (round_float64 100 = 100%Q) as H100 by (vm_compute; reflexivity).
  assert (round_float64 50 = 50%Q) as H50 by (vm_compute; reflexivity).
  split_and!.
  - by apply round_float64_positive.
  - rewrite <- H100. by apply round_float64_mono.
  - intros Hbinary. rewrite <- H50. apply round_float64_mono; [done|].
    apply Qle_shift_div_l; [done|].
    change 50%Q with (inject_Z 50). rewrite <- inject_Z_mult, <- Zle_Qle.
    pose proof (count_label_binary y_dev Hbinary) as Hsum.
    pose proof (Hmax 0). pose proof (Hmax 1). lia.
Qed.

Lemma no_information_rate_bounds_witness :
  ∃ rate, no_information_rate [1; 0; 1; 1] = Ok rate
          ∧ (0 < rate)%Q ∧ (rate <= 100)%Q.
Proof.
  destruct (no_information_rate_bounds [1; 0; 1; 1]) as (rate & Hrate & Hpos & Hle & _);
    [discriminate|].
  by exists rate.
Defined.

(** ** The saving flag *)

Section SaveFlag.

Variable params : Type.
Variable sgd_step : params → list (list Z) → list Z → params * Q.
Variable model : params → list (list Z) → list (list Q).
Variable accuracy_score : list Z → list Z → result Q.
Variable uninitialised : nat → nat → Q.

Variable batch_size : nat.
Variables x_train x_val : list (list Z).
Variables y_train y_val : list Z.
Variable θ0 : params.

(** An epoch trains and reports the same under both values of the flag,
    whatever the best accuracy and the checkpoint are. *)
Lemma epoch_step_flag (flag1 flag2 : bool) (st1 st2 st1' : loop_state params) epoch :
  cur_params st1 = cur_params st2 → val_log st1 = val_log st2 →
  epoch_step params sgd_step model accuracy_score uninitialised flag1
    batch_size x_train y_train x_val y_val st1 epoch = Ok st1' →
  ∃ st2',
    epoch_step params sgd_step model accuracy_score uninitialised flag2
      batch_size x_train y_train x_val y_val st2 epoch = Ok st2'
    ∧ cur_params st2' = cur_params st1' ∧ val_log st2' = val_log st1'.
Proof.
  intros Hparams Hlog. unfold epoch_step. rewrite <- Hparams, <- Hlog.
  destruct (train_pass _ _ _ _ _ _) as [[[θ loss_train] train_steps]|]; simpl; [|done].
  destruct (acc _ _ _ _ _ _ _ _) as [acc_train|]; simpl; [|done].
  destruct (acc_labels _ _ _ _ _ _) as [y_val_pred|]; simpl; [|done].
  destruct (accuracy_score _ _) as [a|]; simpl; [|done].
  destruct (negb (Qle_bool (float64_mul 100 a) (acc_dev_best st1)) && flag1);
    destruct (negb (Qle_bool (float64_mul 100 a) (acc_dev_best st2)) && flag2);
    intros [= <-]; eexists; (split; [done|]); done.
Qed.

(** X15: the saving flag changes nothing but the writes: with saving off
    a run trains the same model and reports the same accuracies as with
    saving on, writes no checkpoint and keeps the best accuracy at 0. *)
Theorem training_loop_save_flag n st :
  training_loop params sgd_step model accuracy_score uninitialised true n
    batch_size θ0 x_train y_train x_val y_val = Ok st →
  ∃ st',
    training_loop params sgd_step model accuracy_score uninitialised false n
      batch_size θ0 x_train y_train x_val y_val = Ok st'
    ∧ cur_params st' = cur_params st ∧ val_log st' = val_log st
    ∧ checkpoint st' = None ∧ save_log st' = [] ∧ acc_dev_best st' = 0%Q.
Proof.
  intros Hrun.
  assert (∃ st',
    training_loop params sgd_step model accuracy_score uninitialised false n
      batch_size θ0 x_train y_train x_val y_val = Ok st'
    ∧ cur_params st' = cur_params st ∧ val_log st' = val_log st) as (st' & Hrun' & Hp & Hl).
  { revert st Hrun. induction n as [|n IH]; intros st Hrun.
    - injection Hrun as <-. by eexists.
    - rewrite training_loop_S in Hrun. rewrite training_loop_S.
      destruct (training_loop _ _ _ _ _ true n _ _ _ _ _ _) as [st_n|]; simpl in Hrun; [|done].
      destruct (IH st_n eq_refl) as (st_n' & -> & Hp & Hl). simpl.
      destruct (epoch_step_flag true false st_n st_n' st n (eq_sym Hp) (eq_sym Hl) Hrun)
        as (st' & Hstep & Hrest).
      by exists st'. }
  exists st'. split_and!; [done..| | |];
    by destruct (training_loop_no_save _ _ _ _ _ _ _ _ _ _ _ _ _ Hrun') as (? & ? & ?).
Qed.

End SaveFlag.

Lemma training_loop_save_flag_witness :
  ∃ st',
    training_loop nat toy_sgd_step toy_model toy_accuracy_score filler
      false 5 2 0%nat [[1; 0]] [1] [[1; 0]; [2; 0]] [1; 1] = Ok st'
    ∧ cur_params st' = 5%nat ∧ checkpoint st' = None.
Proof.
  destruct (training_loop_save_flag nat toy_sgd_step toy_model toy_accuracy_score filler
              2 [[1; 0]] [[1; 0]; [2; 0]] [1] [1; 1] 0%nat 5
              (LoopState 5%nat 100%Q (Some 3%nat)
                 [0%Q; 0%Q; 100%Q; 100%Q; 100%Q] [2%nat]))
    as (st' & Hrun & Hp & _ & Hcp & _).
  { vm_compute. reflexivity. }
  exists st'. by split_and!.
Defined.

(** ** Pretrained vectors of another width *)

Lemma broadcast_refused {A} (e : exn) (n : nat) (v : list A) :
  length v ≠ n → length v ≠ 1%nat → broadcast e n v = Raise e.
Proof.
  intros Hn H1. unfold broadcast. rewrite decide_False by done.
  destruct v as [|c [|c' v]]; simpl in *; done.
Qed.

Lemma broadcast_cases {A} (e : exn) (n : nat) (v : list A) :
  (∃ row, broadcast e n v = Ok row ∧ length row = n) ∨ broadcast e n v = Raise e.
Proof.
  unfold broadcast. destruct (decide (length v = n)); [left; eauto|].
  destruct v as [|c [|c' v]]; [by right | | by right].
  left. eexists. split; [done|]. by rewrite length_replicate.
Qed.

(** The row loop stops with the torch error at the first id whose vector
    can neither be stored nor broadcast. *)
Lemma glove_loop_refused (glove_dict : gmap Z (list Q)) ids :
  ∀ t,
    t_cols t = 50%nat →
    Forall (λ id, 0 ≤ id < Z.of_nat (t_rows t)) ids →
    Exists (λ id, ∃ v, glove_dict !! id = Some v
                       ∧ length v ≠ 50%nat ∧ length v ≠ 1%nat) ids →
    glove_loop glove_dict ids t = Raise RuntimeError.
Proof.
  induction ids as [|id ids IH]; intros t Hcols Hrange Hbad.
  - by apply Exists_nil in Hbad.
  - apply Forall_cons in Hrange as [Hid Hrange]. simpl.
    assert (∀ v, setitem_row RuntimeError t id v = Raise RuntimeError
                 ∨ ∃ row, setitem_row RuntimeError t id v
                          = Ok (Tensor (t_dtype t) (t_rows t) (t_cols t)
                                  (<[Z.to_nat id := row]> (t_data t)))) as Hset.
    { intros v. unfold setitem_row. rewrite py_index_in_range by done. simpl.
      destruct (broadcast_cases RuntimeError (t_cols t) v) as [(row & -> & _)| ->];
        simpl; eauto. }
    destruct (glove_dict !! id) as [v|] eqn:Hv.
    + destruct (decide (length v ≠ 50%nat ∧ length v ≠ 1%nat)) as [[H50 H1]|Hok].
      * unfold setitem_row. rewrite py_index_in_range by done. simpl.
        rewrite broadcast_refused by (by rewrite ?Hcols). done.
      * apply Exists_cons in Hbad as [(v' & Hv' & Hbad)|Hbad]; [by simplify_eq|].
        destruct (Hset v) as [->|[row ->]]; [done|]. simpl. by apply IH.
    + apply Exists_cons in Hbad as [(v' & Hv' & _)|Hbad]; [by simplify_eq|].
      destruct (Hset (ones 50)) as [->|[row ->]]; [done|]. simpl. by apply IH.
Qed.

(** X16: a pretrained vector of an id of the vocabulary that has neither
    50 components nor a single one makes the table builder fail with the
    torch error. *)
Theorem get_glove_table_bad_width (uninitialised : nat → nat → Q)
    (vocab_dict : gmap string Z) (glove_dict : gmap Z (list Q)) id v :
  (∀ id, id ∈ dict_values vocab_dict ↔ 1 ≤ id ≤ Z.of_nat (size vocab_dict)) →
  1 ≤ id ≤ Z.of_nat (size vocab_dict) →
  glove_dict !! id = Some v → length v ≠ 50%nat → length v ≠ 1%nat →
  get_glove_table uninitialised vocab_dict glove_dict = Raise RuntimeError.
Proof.
  intros Hids Hid Hv H50 H1. unfold get_glove_table.
  rewrite glove_loop_refused; [done | done | |].
  - apply Forall_forall. intros id' Hid'.
    apply (elem_of_sorted_values vocab_dict Hids) in Hid'.
    unfold torch_empty. simpl. lia.
  - apply Exists_exists. exists id. split; [|by exists v].
    by apply (elem_of_sorted_values vocab_dict Hids).
Qed.

Lemma get_glove_table_bad_width_witness :
  get_glove_table filler {[ "good" := 1; "bad" := 2 ]} {[ 2 := [1%Q; 1%Q; 1%Q] ]}
  = Raise RuntimeError.
Proof.
  apply (get_glove_table_bad_width filler {[ "good" := 1; "bad" := 2 ]}
           {[ 2 := [1%Q; 1%Q; 1%Q] ]} 2 [1%Q; 1%Q; 1%Q] two_word_vocab_ids).
  - vm_compute. split; discriminate.
  - reflexivity.
  - discriminate.
  - discriminate.
Defined.

(** ** From the file of pretrained vectors to the table *)

Lemma length_np_array_float32 (float32_of : string → option Q) fields v :
  np_array_float32 float32_of fields = Ok v → length v = length fields.
Proof.
  unfold np_array_float32. revert v.
  induction fields as [|field fields IH]; intros v.
  - by intros [= <-].
  - simpl. destruct (float32_of field); simpl; [|done].
    destruct (result_mapM _ fields) as [v'|]; simpl; [|done].
    intros [= <-]. simpl. by rewrite (IH v').
Qed.

Section FileToTable.

Variable word_tokenize : string → list string.
Variable uninitialised : nat → nat → Q.
Variable set_iter : list string → list string.
Variable str_split : string → list string.
Variable float32_of : string → option Q.

Hypothesis set_iter_NoDup : ∀ l, NoDup (set_iter l).
Hypothesis set_iter_elem : ∀ l x, x ∈ set_iter l ↔ x ∈ l.

Variables train dev val : list string.

Local Abbreviation token_ids :=
  (extract_vocab_dict_and_msl word_tokenize set_iter train dev val).1.

(** X17: with the vocabulary of the vocabulary builder and a file whose
    read lines have 51 fields each, the table is built from the parsed
    dictionary; the row of a token is the vector the dictionary holds for
    its id, and the all-ones vector when no read line starts with the
    token. *)
Theorem get_glove_table_from_file glove d :
  get_glove_embeddings str_split float32_of
    (extract_vocab_dict_and_msl word_tokenize set_iter train dev val).1 glove = Ok d →
  Forall (λ line, length (str_split line) = 51%nat) (drop_last (split_newline glove)) →
  ∃ table,
    get_glove_table uninitialised token_ids d = Ok table
    ∧ t_rows table = (size token_ids + 2)%nat
    ∧ ∀ token id, token_ids !! token = Some id →
        (∀ v, d !! id = Some v → t_data table !! Z.to_nat id = Some v)
        ∧ ((∀ line word fields, line ∈ drop_last (split_newline glove) →
              str_split line = word :: fields → word ≠ token) →
           t_data table !! Z.to_nat id = Some (ones 50)).
Proof.
  unfold get_glove_embeddings. intros Hrun Hlines.
  rewrite Forall_forall in Hlines.
  assert (∀ id v, d !! id = Some v →
            ∃ line word fields,
              line ∈ drop_last (split_newline glove)
              ∧ str_split line = word :: fields
              ∧ token_ids !! word = Some id
              ∧ np_array_float32 float32_of fields = Ok v) as Hfrom.
  { intros id v Hv.
    destruct (glove_lines_provenance _ _ _ _ _ _ _ _ Hrun Hv) as [Hempty|?]; [|done].
    by rewrite lookup_empty in Hempty. }
  destruct (get_glove_table_data uninitialised token_ids d
              (token_ids_values word_tokenize set_iter set_iter_NoDup train dev val))
    as (data & Htable & Hlen & Hdata).
  { intros id v _ Hv.
    destruct (Hfrom id v Hv) as (line & word & fields & Hline & Hsplit & _ & Hparse).
    rewrite (length_np_array_float32 _ _ _ Hparse).
    pose proof (Hlines line Hline) as Hwidth. rewrite Hsplit in Hwidth.
    simpl in Hwidth. lia. }
  eexists. split; [exact Htable|]. cbn [t_rows t_data]. split; [done|].
  intros token id Hid.
  pose proof (token_ids_range word_tokenize set_iter set_iter_NoDup
                train dev val token id Hid) as Hrange.
  assert (data !! Z.to_nat id = Some (default (ones 50) (d !! id))) as Hrow.
  { rewrite Hdata. rewrite decide_False, decide_True by lia.
    by rewrite Z2Nat.id by lia. }
  split.
  - intros v Hv. by rewrite Hrow, Hv.
  - intros Habsent. rewrite Hrow.
    destruct (d !! id) as [v|] eqn:Hv; [|done]. exfalso.
    destruct (Hfrom id v Hv) as (line & word & fields & Hline & Hsplit & Hword & _).
    apply (Habsent line word fields Hline Hsplit).
    by apply (token_ids_inj word_tokenize set_iter set_iter_NoDup
                train dev val word token id).
Qed.

End FileToTable.

(** ** The order of the set of tokens *)

(** X18: the vocabulary depends on the order in which the set of tokens
    is iterated only through the ids it assigns: for two orders, the
    tokens that have an id, their number and the returned length are the
    same. *)
Theorem extract_vocab_dict_and_msl_order (word_tokenize : string → list string)
    (set_iter1 set_iter2 : list string → list string) train dev val :
  (∀ l, NoDup (set_iter1 l)) → (∀ l x, x ∈ set_iter1 l ↔ x ∈ l) →
  (∀ l, NoDup (set_iter2 l)) → (∀ l x, x ∈ set_iter2 l ↔ x ∈ l) →
  let r1 := extract_vocab_dict_and_msl word_tokenize set_iter1 train dev val in
  let r2 := extract_vocab_dict_and_msl word_tokenize set_iter2 train dev val in
  (∀ token, is_Some (r1.1 !! token) ↔ is_Some (r2.1 !! token))
  ∧ size r1.1 = size r2.1
  ∧ r1.2 = r2.2.
Proof.
  intros Hnd1 Hel1 Hnd2 Hel2 r1 r2. unfold r1, r2.
  assert (∀ set_iter, (∀ l, NoDup (set_iter l)) → (∀ l x, x ∈ set_iter l ↔ x ∈ l) →
            ∀ token,
              is_Some ((extract_vocab_dict_and_msl word_tokenize set_iter train dev val).1
                         !! token)
              ↔ token ∈ corpus_tokens word_tokenize (train ++ dev ++ val)) as Hdom.
  { intros set_iter Hnd Hel token. split.
    - intros [id Hid]. apply token_ids_lookup in Hid as (i & Hi & _); [|done].
      eapply Hel, list_elem_of_lookup_2, Hi.
    - by apply token_vocab_covers. }
  split_and!.
  - intros token. by rewrite !Hdom.
  - rewrite !token_ids_size by done.
    rewrite (set_iter_length set_iter1), (set_iter_length set_iter2) by done. done.
  - by rewrite !msl_longest.
Qed.

Lemma extract_vocab_dict_and_msl_order_witness :
  size (extract_vocab_dict_and_msl ws_tokenize dedup_order
          ["The movie"; "the good movie"] ["bad"] []).1
  = size (extract_vocab_dict_and_msl ws_tokenize (λ l, reverse (dedup_order l))
            ["The movie"; "the good movie"] ["bad"] []).1.
Proof.
  refine (proj1 (proj2 (extract_vocab_dict_and_msl_order ws_tokenize dedup_order
            (λ l, reverse (dedup_order l)) ["The movie"; "the good movie"] ["bad"] []
            dedup_order_NoDup dedup_order_elem _ _))).
  - intros l. rewrite reverse_Permutation. apply dedup_order_NoDup.
  - intros l x. rewrite elem_of_reverse. apply dedup_order_elem.
Defined.

Example extract_vocab_dict_and_msl_order_example :
  (extract_vocab_dict_and_msl ws_tokenize dedup_order ["good movie"] [] []).1 !! "good"
  = Some 1
  ∧ (extract_vocab_dict_and_msl ws_tokenize (λ l, reverse (dedup_order l))
       ["good movie"] [] []).1 !! "good" = Some 2.
Proof. split; vm_compute; reflexivity. Qed.

Lemma get_glove_table_from_file_witness :
  ∃ d table,
    get_glove_embeddings ws_tokenize digit_of
      (extract_vocab_dict_and_msl ws_tokenize dedup_order ["good movie"] [] []).1
      (ones_line "movie" 50 +:+ String newline "") = Ok d
    ∧ get_glove_table filler
        (extract_vocab_dict_and_msl ws_tokenize dedup_order ["good movie"] [] []).1 d
      = Ok table
    ∧ t_data table !! 1%nat = Some (ones 50).
Proof.
  assert (get_glove_embeddings ws_tokenize digit_of
            (extract_vocab_dict_and_msl ws_tokenize dedup_order ["good movie"] [] []).1
            (ones_line "movie" 50 +:+ String newline "")
          = Ok {[ 2 := replicate 50 1%Q ]}) as Hd by (vm_compute; reflexivity).
  destruct (get_glove_table_from_file ws_tokenize filler dedup_order ws_tokenize digit_of
              dedup_order_NoDup ["good movie"] [] [] _ _ Hd)
    as (table & Htable & _ & Hrows).
  { vm_compute. repeat constructor. }
  exists {[ 2 := replicate 50 1%Q ]}, table. split_and!; [done | done |].
  destruct (Hrows "good" 1) as [_ Habsent]; [vm_compute; reflexivity|].
  apply Habsent. intros line word fields Hline Hsplit.
  vm_compute in Hline. apply list_elem_of_singleton in Hline. subst line.
  vm_compute in Hsplit. injection Hsplit as <- _. discriminate.
Defined.
